(** * Nova dual-model chatbot: a shallow embedding of [nova_dual_chatbot.py]

    The development follows the Python source function by function:
    [create_prompts], [invoke_nova_micro], the generator [stream_nova_pro]
    and the orchestration in [chat].  The Bedrock runtime client is the
    only external collaborator; it is modelled as a [transport] oracle
    that answers each request with one of the outcomes the Python code
    can observe (an exception, a response body, a stream of events). *)

From Stdlib Require Import List NArith ZArith QArith Bool String Ascii Lia.
Import ListNotations.

Set Warnings "-register-all".

Local Open Scope N_scope.
Local Open Scope list_scope.

(** ** Python strings

    A Python [str] is a sequence of Unicode code points.  String literals
    of the (UTF-8 encoded) source file are read with [str]. *)

Definition pystr : Type := list N.

Fixpoint utf8_codepoints (acc : N) (need : nat) (bs : list N) : pystr :=
  match bs with
  | [] => []
  | b :: rest =>
      match need with
      | S (S k) => utf8_codepoints (acc * 64 + b mod 64) (S k) rest
      | S O => (acc * 64 + b mod 64) :: utf8_codepoints 0 0 rest
      | O =>
          if b <? 128 then b :: utf8_codepoints 0 0 rest
          else if b <? 224 then utf8_codepoints (b mod 32) 1 rest
          else if b <? 240 then utf8_codepoints (b mod 16) 2 rest
          else utf8_codepoints (b mod 8) 3 rest
      end
  end.

Definition str (s : string) : pystr :=
  utf8_codepoints 0 0 (map N_of_ascii (list_ascii_of_string s)).
Arguments str : simpl never.

Fixpoint pystr_eqb (a b : pystr) : bool :=
  match a, b with
  | [], [] => true
  | x :: a', y :: b' => (x =? y) && pystr_eqb a' b'
  | _, _ => false
  end.

(** [needle in hay] for two Python strings: substring search. *)
Fixpoint starts_with (needle hay : pystr) : bool :=
  match needle, hay with
  | [], _ => true
  | _ :: _, [] => false
  | a :: needle', b :: hay' => (a =? b) && starts_with needle' hay'
  end.

Fixpoint str_contains (needle hay : pystr) : bool :=
  starts_with needle hay ||
  match hay with
  | [] => false
  | _ :: hay' => str_contains needle hay'
  end.

(** [str.isspace] on one code point, the table [str.strip()] uses. *)
Definition is_space (c : N) : bool :=
  ((9 <=? c) && (c <=? 13)) || ((28 <=? c) && (c <=? 32))
  || (c =? 133) || (c =? 160) || (c =? 5760)
  || ((8192 <=? c) && (c <=? 8202))
  || (c =? 8232) || (c =? 8233) || (c =? 8239) || (c =? 8287)
  || (c =? 12288).

Fixpoint lstrip (s : pystr) : pystr :=
  match s with
  | [] => []
  | c :: s' => if is_space c then lstrip s' else s
  end.

Definition rstrip (s : pystr) : pystr := rev (lstrip (rev s)).

Definition strip (s : pystr) : pystr := rstrip (lstrip s).

Definition nl : pystr := [10].
Definition dquote : pystr := [34].

(** The standard output is a UTF-8 text stream with strict error
    handling: [print] and [sys.stdout.write] encode the whole string
    first, and raise UnicodeEncodeError, writing nothing, when it holds
    a surrogate code point (U+D800 to U+DFFF).  A Python [str] can hold
    one, for example after [json.loads] of an escaped lone surrogate.
    The strings checked are those the program does not fix itself: the
    query, the fast answer, the chunks and the region.  An exception is
    modelled by its class, and the line that shows one is taken to be
    encodable, as the messages of the exceptions raised by the code
    itself are (key names, type names, positions). *)
Definition is_surrogate (c : N) : bool := (55296 <=? c) && (c <=? 57343).

Definition encodable (s : pystr) : bool :=
  forallb (fun c => negb (is_surrogate c)) s.

(** ** Python values after [json.loads]

    A JSON object is a dict with string keys; the association list lists
    its items, and [dict_get] returns the first binding of a key.  A
    float stands for the rational it denotes. *)

Inductive pyval : Type :=
| PNone
| PBool (b : bool)
| PInt (z : Z)
| PFloat (x : Q)
| PStr (s : pystr)
| PList (l : list pyval)
| PDict (kv : list (pystr * pyval)).

Inductive exn : Type :=
| TransportError      (* botocore: timeout, connection, client, event stream *)
| UnicodeDecodeError
| UnicodeEncodeError  (* writing a string the output stream cannot encode *)
| JSONDecodeError
| KeyError
| IndexError
| TypeError
| AttributeError.

(** Outcome of an expression that may raise. *)
Inductive result (A : Type) : Type :=
| Ok (a : A)
| Raise (e : exn).
Arguments Ok {A} a.
Arguments Raise {A} e.

Definition bind {A B} (r : result A) (k : A -> result B) : result B :=
  match r with
  | Ok a => k a
  | Raise e => Raise e
  end.

Notation "x <- r ;; k" := (bind r (fun x => k))
  (at level 61, r at next level, right associativity).

(** Truth value of a Python object ([if v:]). *)
Definition truthy (v : pyval) : bool :=
  match v with
  | PNone => false
  | PBool b => b
  | PInt z => negb (Z.eqb z 0)
  | PFloat x => negb (Qeq_bool x 0)
  | PStr s => match s with [] => false | _ => true end
  | PList l => match l with [] => false | _ => true end
  | PDict kv => match kv with [] => false | _ => true end
  end.

Fixpoint dict_get (k : pystr) (kv : list (pystr * pyval)) : option pyval :=
  match kv with
  | [] => None
  | (k', v) :: kv' => if pystr_eqb k k' then Some v else dict_get k kv'
  end.

Definition is_str_eq (k : pystr) (v : pyval) : bool :=
  match v with
  | PStr s => pystr_eqb k s
  | _ => false
  end.

(** [k in v] for a string key [k]. *)
Definition py_in (k : pystr) (v : pyval) : result bool :=
  match v with
  | PDict kv => Ok (match dict_get k kv with Some _ => true | None => false end)
  | PList l => Ok (existsb (is_str_eq k) l)
  | PStr s => Ok (str_contains k s)
  | PNone | PBool _ | PInt _ | PFloat _ => Raise TypeError
  end.

(** [v[k]] for a string key [k]. *)
Definition py_getitem (k : pystr) (v : pyval) : result pyval :=
  match v with
  | PDict kv => match dict_get k kv with Some x => Ok x | None => Raise KeyError end
  | _ => Raise TypeError
  end.

(** [v[0]]: a JSON dict has no integer key. *)
Definition py_getitem0 (v : pyval) : result pyval :=
  match v with
  | PList l => match l with x :: _ => Ok x | [] => Raise IndexError end
  | PStr s => match s with c :: _ => Ok (PStr [c]) | [] => Raise IndexError end
  | PDict _ => Raise KeyError
  | PNone | PBool _ | PInt _ | PFloat _ => Raise TypeError
  end.

(** [v.get(k, default)]: only dicts have the method. *)
Definition py_get (k : pystr) (default : pyval) (v : pyval) : result pyval :=
  match v with
  | PDict kv => Ok (match dict_get k kv with Some x => x | None => default end)
  | _ => Raise AttributeError
  end.

(** [v.strip()]: only strings have the method. *)
Definition py_strip (v : pyval) : result pystr :=
  match v with
  | PStr s => Ok (strip s)
  | _ => Raise AttributeError
  end.

(** ** [create_prompts] *)

Definition micro_template_head : pystr :=
  str "사용자가 다음 질문을 했습니다: " ++ dquote.

Definition micro_template_tail : pystr :=
  dquote ++ nl ++ nl ++
  str "당신은 친절한 AI 어시스턴트입니다. 질문을 이해했으며, 상세한 답변을 준비하고 있다는 내용의 짧고 격려하는 한 문장으로 응답해주세요. 한국어로 답변하세요.".

Definition pro_template_head : pystr :=
  str "다음 질문에 대해 전문가 수준의 상세하고 구조화된 답변을 제공해주세요. " ++ nl ++
  str "복잡한 주제는 이해하기 쉽게 나누어 설명하고, 필요한 경우 마크다운을 사용하여 서식을 지정해주세요." ++ nl ++
  str "한국어로 답변하세요." ++ nl ++ nl ++
  str "질문: " ++ dquote.

Definition pro_template_tail : pystr := dquote ++ str " ".

Definition create_prompts (user_query : pystr) : pystr * pystr :=
  let micro_prompt := micro_template_head ++ user_query ++ micro_template_tail in
  let pro_prompt := pro_template_head ++ user_query ++ pro_template_tail in
  (micro_prompt, pro_prompt).

(** ** The Bedrock runtime client

    A request carries what the source puts into [body] and [modelId]. *)

Record request : Type := {
  modelId : pystr;
  prompt_text : pystr;
  max_new_tokens : Z;
  temperature : Q
}.

(** What [response.get('body').read()] followed by [json.loads] gives. *)
Inductive body_read : Type :=
| ReadRaises (e : exn)            (* the read fails *)
| ReadBytes (parsed : result pyval). (* bytes, with what json.loads makes of them *)

Inductive micro_reply : Type :=
| InvokeRaises (e : exn)
| InvokeReturns (body : option body_read). (* None: the response has no body *)

(** The [bytes] entry of a chunk, with what [.decode()] and [json.loads]
    make of it. *)
Inductive chunk_bytes : Type :=
| NoBytes                 (* a chunk without a bytes entry *)
| Undecodable (e : exn)   (* decode or json.loads raises *)
| Decoded (v : pyval).

Inductive stream_event : Type :=
| NoChunk                 (* event.get('chunk') is None or empty *)
| Chunk (b : chunk_bytes).

Inductive stream_end : Type :=
| EndOfStream
| StreamRaises (e : exn). (* iteration fails after the listed events *)

Record event_stream : Type := {
  stream_events : list stream_event;
  stream_final : stream_end
}.

Inductive stream_reply : Type :=
| StreamInvokeRaises (e : exn)
| StreamInvokeReturns (body : option event_stream). (* None: no body *)

Record transport : Type := {
  invoke_model : request -> micro_reply;
  invoke_model_with_response_stream : request -> stream_reply
}.

(** ** Observable effects

    The lines the code prints are told apart by [log_line]; the fixed
    texts of the source are encodable, and so is taken to be the text of
    an exception that a line includes.  What a line includes of the
    query, of the fast answer or of a chunk is checked with [encodable]
    where the line is printed. *)

Inductive log_line : Type :=
| LogQuestion (q : pystr)
| LogRule
| LogMicroCalling
| LogMicroDone
| LogMicroError (e : exn)
| LogProStart
| LogProError (e : exn)
| LogFastHeader
| LogDeepHeader
| LogDone.

Inductive event : Type :=
| EPrint (l : log_line)
| ESubmitMicro                 (* executor.submit(self.invoke_nova_micro, ..) *)
| ESubmitPro                   (* executor.submit(self.stream_nova_pro, ..) *)
| EInvokeModel (r : request)   (* the fast-tier request is issued *)
| EInvokeStream (r : request)  (* the deep-tier streaming request is issued *)
| EStreamRead                  (* the stream is asked for its next event *)
| EAwaitMicro (r : pystr)      (* future_micro.result() has returned r *)
| ESinkFast (r : pystr)        (* print of micro_response *)
| EAwaitPro                    (* future_pro_stream.result() has returned *)
| EPull                        (* the for loop asks the generator for a chunk *)
| ESinkChunk (c : pystr).      (* sys.stdout.write(chunk) *)

(** ** [invoke_nova_micro] *)

Definition MICRO_FALLBACK : pystr :=
  str "죄송합니다. 초기 응답 생성에 문제가 발생했습니다.".

Definition micro_request (prompt : pystr) : request :=
  {| modelId := str "amazon.nova-micro-v1:0";
     prompt_text := prompt;
     max_new_tokens := 100;
     temperature := 3 # 10 |}.

Definition read_body (r : micro_reply) : result pyval :=
  match r with
  | InvokeRaises e => Raise e
  | InvokeReturns None => Raise AttributeError
  | InvokeReturns (Some (ReadRaises e)) => Raise e
  | InvokeReturns (Some (ReadBytes parsed)) => parsed
  end.

(** [response_body['output']['message']['content'][0]['text']] *)
Definition extract_completion (response_body : pyval) : result pyval :=
  output <- py_getitem (str "output") response_body ;;
  message <- py_getitem (str "message") output ;;
  content <- py_getitem (str "content") message ;;
  first <- py_getitem0 content ;;
  py_getitem (str "text") first.

(** The [try] block up to the assignment of [completion]. *)
Definition micro_completion (t : transport) (prompt : pystr) : result pyval :=
  response_body <- read_body (invoke_model t (micro_request prompt)) ;;
  extract_completion response_body.

(** The [try] block from the reply on: the line that reports the elapsed
    time is printed once [completion] is there, before it is stripped. *)
Definition micro_try (t : transport) (prompt : pystr) : list event * result pystr :=
  match micro_completion t prompt with
  | Raise e => ([], Raise e)
  | Ok completion => ([EPrint LogMicroDone], py_strip completion)
  end.

(** [except Exception as e]: print, then return the notice. *)
Definition micro_except (body : list event * result pystr) : list event * pystr :=
  match body with
  | (effects, Ok completion) => (effects, completion)
  | (effects, Raise e) => (effects ++ [EPrint (LogMicroError e)], MICRO_FALLBACK)
  end.

Definition invoke_nova_micro (t : transport) (prompt : pystr) : pystr :=
  snd (micro_except (micro_try t prompt)).

(** The effects of the call, in program order: up to the request, and
    from the reply on. *)
Definition micro_effects_call (prompt : pystr) : list event :=
  [EPrint LogMicroCalling; EInvokeModel (micro_request prompt)].

Definition micro_effects_return (t : transport) (prompt : pystr) : list event :=
  fst (micro_except (micro_try t prompt)).

(** ** [stream_nova_pro] *)

Definition PRO_FALLBACK : pystr :=
  nl ++ str "죄송합니다. 상세 답변 생성 중 오류가 발생했습니다.".

Definition pro_request (prompt : pystr) : request :=
  {| modelId := str "amazon.nova-pro-v1:0";
     prompt_text := prompt;
     max_new_tokens := 2048;
     temperature := 5 # 10 |}.

Definition decode_chunk (b : chunk_bytes) : result pyval :=
  match b with
  | NoBytes => Raise AttributeError
  | Undecodable e => Raise e
  | Decoded v => Ok v
  end.

(** One turn of the [for event in stream] body: [Ok (Some text)] when the
    body reaches [yield text_content], [Ok None] when it falls through. *)
Definition handle_event (ev : stream_event) : result (option pyval) :=
  match ev with
  | NoChunk => Ok None
  | Chunk b =>
      chunk_obj <- decode_chunk b ;;
      has_delta <- py_in (str "contentBlockDelta") chunk_obj ;;
      if has_delta then
        block <- py_getitem (str "contentBlockDelta") chunk_obj ;;
        delta <- py_get (str "delta") (PDict []) block ;;
        text_content <- py_get (str "text") (PStr []) delta ;;
        if truthy text_content then Ok (Some text_content) else Ok None
      else Ok None
  end.

(** The generator object: where its frame is suspended. *)
Inductive generator : Type :=
| GenCreated (prompt : pystr)                           (* body not entered yet *)
| GenInLoop (rest : list stream_event) (fin : stream_end) (* at [yield text_content] *)
| GenInHandler                                          (* at the [yield] of the handler *)
| GenExhausted.

(** What one resumption gives: a value and the suspended frame, or the end
    of the generator. *)
Definition resumption : Type := option (pyval * generator).

(** The [for] loop, run until the next [yield], the end of the stream or
    an exception. *)
Fixpoint run_loop (events : list stream_event) (fin : stream_end)
  : list event * result resumption :=
  match events with
  | [] =>
      match fin with
      | EndOfStream => ([EStreamRead], Ok None)
      | StreamRaises e => ([EStreamRead], Raise e)
      end
  | ev :: rest =>
      match handle_event ev with
      | Raise e => ([EStreamRead], Raise e)
      | Ok (Some text_content) =>
          ([EStreamRead], Ok (Some (text_content, GenInLoop rest fin)))
      | Ok None =>
          let (effects, r) := run_loop rest fin in
          (EStreamRead :: effects, r)
      end
  end.

(** The [try] block from its start. *)
Definition pro_try_start (t : transport) (prompt : pystr)
  : list event * result resumption :=
  let req := pro_request prompt in
  let issued := [EPrint LogProStart; EInvokeStream req] in
  match invoke_model_with_response_stream t req with
  | StreamInvokeRaises e => (issued, Raise e)
  | StreamInvokeReturns None => (issued, Ok None)
  | StreamInvokeReturns (Some stream) =>
      let (effects, r) := run_loop (stream_events stream) (stream_final stream) in
      (issued ++ effects, r)
  end.

(** [except Exception as e]: print, then yield the notice. *)
Definition pro_except (body : list event * result resumption)
  : list event * result resumption :=
  match body with
  | (effects, Raise e) =>
      (effects ++ [EPrint (LogProError e)],
       Ok (Some (PStr PRO_FALLBACK, GenInHandler)))
  | (effects, Ok r) => (effects, Ok r)
  end.

(** [next(g)]: resume the frame where it is suspended. *)
Definition gen_next (t : transport) (g : generator)
  : list event * result resumption :=
  match g with
  | GenCreated prompt => pro_except (pro_try_start t prompt)
  | GenInLoop rest fin => pro_except (run_loop rest fin)
  | GenInHandler => ([], Ok None)
  | GenExhausted => ([], Ok None)
  end.

(** Calling the generator function only builds the generator object. *)
Definition stream_nova_pro (prompt : pystr) : list event * generator :=
  ([], GenCreated prompt).

(** Pulling from a generator until it ends, as a [for] loop or [list(g)]
    does; the fuel bounds the number of resumptions. *)
Inductive drained : Type :=
| Finished (chunks : list pyval)            (* StopIteration reached *)
| Propagated (chunks : list pyval) (e : exn) (* an exception left the generator *)
| OutOfFuel (chunks : list pyval).

Definition drained_cons (v : pyval) (d : drained) : drained :=
  match d with
  | Finished l => Finished (v :: l)
  | Propagated l e => Propagated (v :: l) e
  | OutOfFuel l => OutOfFuel (v :: l)
  end.

Fixpoint drain (t : transport) (fuel : nat) (g : generator) : drained :=
  match fuel with
  | O => OutOfFuel []
  | S fuel' =>
      match snd (gen_next t g) with
      | Raise e => Propagated [] e
      | Ok None => Finished []
      | Ok (Some (v, g')) => drained_cons v (drain t fuel' g')
      end
  end.

(** ** [chat]

    [chat] runs on the main thread; the executor runs each submitted call
    on a worker thread of its own ([max_workers=2]).  A configuration holds
    the point the main thread has reached, the two futures and the effects
    observed so far, oldest first. *)

Inductive thread : Type :=
| MainThread
| MicroWorker    (* runs self.invoke_nova_micro(micro_prompt) *)
| ProWorker.     (* runs self.stream_nova_pro(pro_prompt) *)

Inductive main_point : Type :=
| AtStart (user_query : pystr)
| AtSubmitMicro (micro_prompt pro_prompt : pystr)
| AtSubmitPro (pro_prompt : pystr)
| AtAwaitMicro                         (* future_micro.result() *)
| AtAwaitPro                           (* future_pro_stream.result() *)
| AtLoop (pro_stream_generator : generator) (full_pro_response : pystr)
| Returned (full_pro_response : pystr)
| Crashed (e : exn).

Inductive micro_future : Type :=
| MicroNotSubmitted
| MicroQueued (prompt : pystr)
| MicroCalling (prompt : pystr)        (* request sent, reply awaited *)
| MicroDone (micro_response : pystr).

Inductive pro_future : Type :=
| ProNotSubmitted
| ProQueued (prompt : pystr)
| ProDone (g : generator).

Record config : Type := {
  point : main_point;
  future_micro : micro_future;
  future_pro_stream : pro_future;
  trace : list event
}.

Definition initial (user_query : pystr) : config :=
  {| point := AtStart user_query;
     future_micro := MicroNotSubmitted;
     future_pro_stream := ProNotSubmitted;
     trace := [] |}.

(** The block of effects between the two [result()] calls. *)
Definition fast_block (micro_response : pystr) : list event :=
  [EAwaitMicro micro_response; EPrint LogFastHeader;
   ESinkFast micro_response; EPrint LogDeepHeader].

Definition step_main (t : transport) (c : config) : option config :=
  match point c with
  | AtStart user_query =>
      if encodable user_query then
        let (micro_prompt, pro_prompt) := create_prompts user_query in
        Some {| point := AtSubmitMicro micro_prompt pro_prompt;
                future_micro := future_micro c;
                future_pro_stream := future_pro_stream c;
                trace := trace c ++ [EPrint (LogQuestion user_query); EPrint LogRule] |}
      else
        (* the print of the question raises *)
        Some {| point := Crashed UnicodeEncodeError;
                future_micro := future_micro c;
                future_pro_stream := future_pro_stream c;
                trace := trace c |}
  | AtSubmitMicro micro_prompt pro_prompt =>
      Some {| point := AtSubmitPro pro_prompt;
              future_micro := MicroQueued micro_prompt;
              future_pro_stream := future_pro_stream c;
              trace := trace c ++ [ESubmitMicro] |}
  | AtSubmitPro pro_prompt =>
      Some {| point := AtAwaitMicro;
              future_micro := future_micro c;
              future_pro_stream := ProQueued pro_prompt;
              trace := trace c ++ [ESubmitPro] |}
  | AtAwaitMicro =>
      match future_micro c with
      | MicroDone micro_response =>
          if encodable micro_response then
            Some {| point := AtAwaitPro;
                    future_micro := future_micro c;
                    future_pro_stream := future_pro_stream c;
                    trace := trace c ++ fast_block micro_response |}
          else
            (* the print of micro_response raises *)
            Some {| point := Crashed UnicodeEncodeError;
                    future_micro := future_micro c;
                    future_pro_stream := future_pro_stream c;
                    trace := trace c ++ [EAwaitMicro micro_response;
                                         EPrint LogFastHeader] |}
      | _ => None     (* blocked *)
      end
  | AtAwaitPro =>
      match future_pro_stream c with
      | ProDone g =>
          Some {| point := AtLoop g [];
                  future_micro := future_micro c;
                  future_pro_stream := future_pro_stream c;
                  trace := trace c ++ [EAwaitPro] |}
      | _ => None     (* blocked *)
      end
  | AtLoop g full_pro_response =>
      let (effects, r) := gen_next t g in
      match r with
      | Raise e =>
          Some {| point := Crashed e;
                  future_micro := future_micro c;
                  future_pro_stream := future_pro_stream c;
                  trace := trace c ++ EPull :: effects |}
      | Ok None =>
          Some {| point := Returned full_pro_response;
                  future_micro := future_micro c;
                  future_pro_stream := future_pro_stream c;
                  trace := trace c ++ EPull :: effects ++ [EPrint LogDone; EPrint LogRule] |}
      | Ok (Some (PStr chunk, g')) =>
          if encodable chunk then
            Some {| point := AtLoop g' (full_pro_response ++ chunk);
                    future_micro := future_micro c;
                    future_pro_stream := future_pro_stream c;
                    trace := trace c ++ EPull :: effects ++ [ESinkChunk chunk] |}
          else
            (* sys.stdout.write of a string it cannot encode *)
            Some {| point := Crashed UnicodeEncodeError;
                    future_micro := future_micro c;
                    future_pro_stream := future_pro_stream c;
                    trace := trace c ++ EPull :: effects |}
      | Ok (Some (_, _)) =>
          (* sys.stdout.write of a value that is not a str *)
          Some {| point := Crashed TypeError;
                  future_micro := future_micro c;
                  future_pro_stream := future_pro_stream c;
                  trace := trace c ++ EPull :: effects |}
      end
  | Returned _ => None
  | Crashed _ => None
  end.

Definition step_micro (t : transport) (c : config) : option config :=
  match future_micro c with
  | MicroQueued prompt =>
      Some {| point := point c;
              future_micro := MicroCalling prompt;
              future_pro_stream := future_pro_stream c;
              trace := trace c ++ micro_effects_call prompt |}
  | MicroCalling prompt =>
      Some {| point := point c;
              future_micro := MicroDone (invoke_nova_micro t prompt);
              future_pro_stream := future_pro_stream c;
              trace := trace c ++ micro_effects_return t prompt |}
  | _ => None
  end.

Definition step_pro (c : config) : option config :=
  match future_pro_stream c with
  | ProQueued prompt =>
      let (effects, g) := stream_nova_pro prompt in
      Some {| point := point c;
              future_micro := future_micro c;
              future_pro_stream := ProDone g;
              trace := trace c ++ effects |}
  | _ => None
  end.

Definition step (t : transport) (th : thread) (c : config) : option config :=
  match th with
  | MainThread => step_main t c
  | MicroWorker => step_micro t c
  | ProWorker => step_pro c
  end.

(** A schedule names the thread that moves next; a thread that cannot
    move is passed over. *)
Fixpoint run (t : transport) (schedule : list thread) (c : config) : config :=
  match schedule with
  | [] => c
  | th :: schedule' =>
      match step t th c with
      | Some c' => run t schedule' c'
      | None => run t schedule' c
      end
  end.

Definition chat (t : transport) (user_query : pystr) (schedule : list thread) : config :=
  run t schedule (initial user_query).

(** The schedule in which each worker runs as soon as it is submitted,
    followed by [pulls] turns of the main thread. *)
Definition eager_schedule (pulls : nat) : list thread :=
  [MainThread; MainThread; MicroWorker; MicroWorker;
   MainThread; ProWorker; MainThread; MainThread] ++ repeat MainThread pulls.

(** [''.join(chunks)] for chunks that are strings. *)
Fixpoint join_chunks (chunks : list pyval) : pystr :=
  match chunks with
  | [] => []
  | PStr s :: rest => s ++ join_chunks rest
  | _ :: rest => join_chunks rest
  end.

(** ** Sample transports *)

Definition json_text (s : string) : pyval := PStr (str s).

(** The envelope of a fast-tier answer. *)
Definition micro_envelope (text : pyval) : pyval :=
  PDict [(str "output",
          PDict [(str "message",
                  PDict [(str "role", json_text "assistant");
                         (str "content", PList [PDict [(str "text", text)]])])])].

Definition delta_event (text : pyval) : stream_event :=
  Chunk (Decoded
    (PDict [(str "contentBlockDelta",
             PDict [(str "delta", PDict [(str "text", text)]);
                    (str "contentBlockIndex", PInt 0)])])).

Definition message_start_event : stream_event :=
  Chunk (Decoded (PDict [(str "messageStart", PDict [(str "role", json_text "assistant")])])).

Definition block_stop_event : stream_event :=
  Chunk (Decoded (PDict [(str "contentBlockStop", PDict [(str "contentBlockIndex", PInt 0)])])).

Definition hello_events : list stream_event :=
  [message_start_event;
   delta_event (json_text "Hel"); delta_event (json_text "lo, ");
   delta_event (json_text "world!");
   block_stop_event].

Definition sample_transport (fast : micro_reply) (deep : stream_reply) : transport :=
  {| invoke_model := fun _ => fast;
     invoke_model_with_response_stream := fun _ => deep |}.

Definition hello_transport : transport :=
  sample_transport
    (InvokeReturns (Some (ReadBytes (Ok (micro_envelope (json_text "  On it! "))))))
    (StreamInvokeReturns (Some {| stream_events := hello_events; stream_final := EndOfStream |})).

(** * Vocabulary of the properties *)

Definition starts_clean (s : pystr) : Prop :=
  match s with
  | [] => True
  | c :: _ => is_space c = false
  end.

(** A string with no whitespace at either end. *)
Definition trimmed (s : pystr) : Prop :=
  starts_clean s /\ starts_clean (rev s).


(** The chunks the loop yields from [events] on, in closed form. *)
Fixpoint loop_chunks (events : list stream_event) (fin : stream_end) : list pyval :=
  match events with
  | [] =>
      match fin with
      | EndOfStream => []
      | StreamRaises _ => [PStr PRO_FALLBACK]
      end
  | ev :: rest =>
      match handle_event ev with
      | Raise _ => [PStr PRO_FALLBACK]
      | Ok None => loop_chunks rest fin
      | Ok (Some v) => v :: loop_chunks rest fin
      end
  end.

Definition reply_chunks (r : stream_reply) : list pyval :=
  match r with
  | StreamInvokeRaises _ => [PStr PRO_FALLBACK]
  | StreamInvokeReturns None => []
  | StreamInvokeReturns (Some s) => loop_chunks (stream_events s) (stream_final s)
  end.

(** Resumptions that always suffice to exhaust the generator. *)
Definition enough_fuel (r : stream_reply) : nat :=
  match r with
  | StreamInvokeReturns (Some s) => List.length (stream_events s) + 2
  | _ => 2
  end.

(** The text a stream event carries, read off the event itself: the
    [text] of the [delta] of a [contentBlockDelta] object, when it is
    there and true as a condition (for a string: not empty). *)
Definition delta_text (ev : stream_event) : option pyval :=
  match ev with
  | Chunk (Decoded (PDict kv)) =>
      match dict_get (str "contentBlockDelta") kv with
      | Some (PDict block) =>
          match dict_get (str "delta") block with
          | Some (PDict delta) =>
              match dict_get (str "text") delta with
              | Some text => if truthy text then Some text else None
              | None => None
              end
          | _ => None
          end
      | _ => None
      end
  | _ => None
  end.

Definition delta_texts (events : list stream_event) : list pyval :=
  flat_map (fun ev => match delta_text ev with Some v => [v] | None => [] end) events.

(** An event the loop handles without an exception. *)
Definition handled (ev : stream_event) : Prop :=
  exists r, handle_event ev = Ok r.





(** A chunk [sys.stdout.write] accepts: a string it can encode. *)
Definition is_writable (v : pyval) : Prop :=
  match v with
  | PStr s => encodable s = true
  | _ => False
  end.

(** A stream in which nothing raises: it ends regularly and every event
    is handled. *)
Definition error_free (s : event_stream) : Prop :=
  stream_final s = EndOfStream /\ Forall handled (stream_events s).

(** No [Q] event before the first [P] event. *)
Fixpoint guarded (P Q : event -> bool) (tr : list event) : bool :=
  match tr with
  | [] => true
  | e :: tr' => if P e then true else negb (Q e) && guarded P Q tr'
  end.

(** Effects that only the part of [chat] after [future_micro.result()]
    produces. *)
Definition late (e : event) : bool :=
  match e with
  | EAwaitPro | EPull | EInvokeStream _ | EStreamRead | ESinkChunk _ => true
  | EPrint LogProStart | EPrint (LogProError _) | EPrint LogDone => true
  | _ => false
  end.

(** What the futures and the main thread hold in a configuration of
    [chat t q], for the invariant below. *)
Definition micro_consistent (t : transport) (q : pystr) (f : micro_future) : Prop :=
  match f with
  | MicroNotSubmitted => True
  | MicroQueued p => p = fst (create_prompts q)
  | MicroCalling p => p = fst (create_prompts q)
  | MicroDone r => r = invoke_nova_micro t (fst (create_prompts q))
  end.

Definition point_consistent (q : pystr) (P : event -> bool) (c : config) : Prop :=
  match point c with
  | AtStart user_query => user_query = q
  | AtSubmitMicro p _ => p = fst (create_prompts q)
  | AtSubmitPro _ => True
  | AtAwaitMicro => True
  | Crashed _ => True
  | _ => existsb P (trace c) = true
  end.

Definition fast_first_inv (t : transport) (q : pystr) (P Q : event -> bool)
    (c : config) : Prop :=
  guarded P Q (trace c) = true
  /\ micro_consistent t q (future_micro c)
  /\ point_consistent q P c.

(** The schedule in which the worker for [stream_nova_pro] runs first,
    as soon as both calls are submitted. *)
Definition pro_first_schedule (pulls : nat) : list thread :=
  [MainThread; MainThread; MainThread; ProWorker; MicroWorker; MicroWorker;
   MainThread; MainThread] ++ repeat MainThread pulls.

(** The effects of [chat "hi"] over [hello_transport] under that schedule:
    up to the return of [future_pro_stream.result()], and after the deep
    request. *)
Definition hello_until_await_pro : list event :=
  [EPrint (LogQuestion (str "hi")); EPrint LogRule; ESubmitMicro; ESubmitPro;
   EPrint LogMicroCalling;
   EInvokeModel (micro_request (fst (create_prompts (str "hi"))));
   EPrint LogMicroDone;
   EAwaitMicro (str "On it!"); EPrint LogFastHeader;
   ESinkFast (str "On it!"); EPrint LogDeepHeader; EAwaitPro].

Definition hello_after_request : list event :=
  [EStreamRead; EStreamRead; ESinkChunk (str "Hel");
   EPull; EStreamRead; ESinkChunk (str "lo, ");
   EPull; EStreamRead; ESinkChunk (str "world!");
   EPull; EStreamRead; EStreamRead; EPrint LogDone; EPrint LogRule].

Definition consumes_chunk (e : event) : bool :=
  match e with
  | EPull | ESinkChunk _ => true
  | _ => false
  end.

Definition shows_fast (r : pystr) (e : event) : bool :=
  match e with
  | ESinkFast r' => pystr_eqb r' r
  | _ => false
  end.

Definition awaits_fast (r : pystr) (e : event) : bool :=
  match e with
  | EAwaitMicro r' => pystr_eqb r' r
  | _ => false
  end.

Definition issues_deep_request (e : event) : bool :=
  match e with
  | EInvokeStream _ => true
  | _ => false
  end.

(** Traffic with the deep tier: the streaming request and the reads of
    its event stream. *)
Definition deep_io (e : event) : bool :=
  match e with
  | EInvokeStream _ | EStreamRead => true
  | _ => false
  end.

Definition is_pull (e : event) : bool :=
  match e with
  | EPull => true
  | _ => false
  end.

(** ** Further vocabulary: replies and envelopes *)


(** A fast-tier envelope whose [content] entry is [content]. *)
Definition envelope_with_content (content : pyval) : pyval :=
  PDict [(str "output",
          PDict [(str "message", PDict [(str "content", content)])])].

(** ** Further vocabulary: a whole turn of [chat] *)

(** Marks of the points the threads reach, as opposed to what a turn
    prints, requests, reads and writes. *)
Definition ghost (e : event) : bool :=
  match e with
  | ESubmitMicro | ESubmitPro | EAwaitMicro _ | EAwaitPro | EPull => true
  | _ => false
  end.

Definition visible_output (tr : list event) : list event :=
  filter (fun e => negb (ghost e)) tr.

Definition is_request (e : event) : bool :=
  match e with
  | EInvokeModel _ | EInvokeStream _ => true
  | _ => false
  end.

Definition requests (tr : list event) : list event := filter is_request tr.

Definition is_final (p : main_point) : bool :=
  match p with
  | Returned _ | Crashed _ => true
  | _ => false
  end.

(** What the loop of [chat] still shows once the generator has yielded
    the notice. *)
Definition notice_output : list event :=
  [ESinkChunk PRO_FALLBACK; EPrint LogDone; EPrint LogRule].

(** What the loop of [chat] shows from the moment the generator asks the
    stream for its next event. *)
Fixpoint stream_output (events : list stream_event) (fin : stream_end) : list event :=
  match events with
  | [] =>
      match fin with
      | EndOfStream => [EStreamRead; EPrint LogDone; EPrint LogRule]
      | StreamRaises e => EStreamRead :: EPrint (LogProError e) :: notice_output
      end
  | ev :: rest =>
      EStreamRead ::
      match handle_event ev with
      | Raise e => EPrint (LogProError e) :: notice_output
      | Ok None => stream_output rest fin
      | Ok (Some (PStr chunk)) =>
          if encodable chunk then ESinkChunk chunk :: stream_output rest fin
          else []               (* sys.stdout.write raises *)
      | Ok (Some _) => []       (* sys.stdout.write raises *)
      end
  end.

(** What the loop of [chat] shows from a generator in state [g] on. *)
Definition gen_output (t : transport) (g : generator) : list event :=
  match g with
  | GenCreated prompt =>
      [EPrint LogProStart; EInvokeStream (pro_request prompt)] ++
      match invoke_model_with_response_stream t (pro_request prompt) with
      | StreamInvokeRaises e => EPrint (LogProError e) :: notice_output
      | StreamInvokeReturns None => [EPrint LogDone; EPrint LogRule]
      | StreamInvokeReturns (Some s) => stream_output (stream_events s) (stream_final s)
      end
  | GenInLoop rest fin => stream_output rest fin
  | GenInHandler => [EPrint LogDone; EPrint LogRule]
  | GenExhausted => [EPrint LogDone; EPrint LogRule]
  end.

(** The chunks a generator in state [g] still yields. *)
Definition gen_chunks (t : transport) (g : generator) : list pyval :=
  match g with
  | GenCreated prompt =>
      reply_chunks (invoke_model_with_response_stream t (pro_request prompt))
  | GenInLoop rest fin => loop_chunks rest fin
  | GenInHandler => []
  | GenExhausted => []
  end.



(** How the loop of [chat] ends when the generator still yields [chunks]
    and [full_pro_response] is [acc]: [sys.stdout.write] raises a
    TypeError for a chunk that is not a string and a UnicodeEncodeError
    for a string it cannot encode. *)
Fixpoint loop_outcome (acc : pystr) (chunks : list pyval) : main_point :=
  match chunks with
  | [] => Returned acc
  | PStr s :: rest =>
      if encodable s then loop_outcome (acc ++ s) rest
      else Crashed UnicodeEncodeError
  | _ :: _ => Crashed TypeError
  end.

(** What [chat] shows from the return of [future_micro.result()] on, and
    how it ends, when the fast answer is [micro_response]. *)
Definition after_fast (t : transport) (micro_response : pystr) (g : generator)
  : list event :=
  if encodable micro_response then
    [EPrint LogFastHeader; ESinkFast micro_response; EPrint LogDeepHeader]
    ++ gen_output t g
  else [EPrint LogFastHeader].

Definition outcome_after_fast (micro_response : pystr) (chunks : list pyval)
  : main_point :=
  if encodable micro_response then loop_outcome [] chunks
  else Crashed UnicodeEncodeError.

Definition micro_result (t : transport) (f : micro_future) : pystr :=
  match f with
  | MicroNotSubmitted => []
  | MicroQueued prompt => invoke_nova_micro t prompt
  | MicroCalling prompt => invoke_nova_micro t prompt
  | MicroDone micro_response => micro_response
  end.

Definition micro_pending (t : transport) (f : micro_future) : list event :=
  match f with
  | MicroQueued prompt => micro_effects_call prompt ++ micro_effects_return t prompt
  | MicroCalling prompt => micro_effects_return t prompt
  | _ => []
  end.

Definition generator_of (f : pro_future) : generator :=
  match f with
  | ProNotSubmitted => GenExhausted
  | ProQueued prompt => GenCreated prompt
  | ProDone g => g
  end.

(** What a configuration has still to show before the turn is over. *)
Definition pending_output (t : transport) (c : config) : list event :=
  match point c with
  | AtStart user_query =>
      if encodable user_query then
        [EPrint (LogQuestion user_query); EPrint LogRule]
        ++ micro_effects_call (fst (create_prompts user_query))
        ++ micro_effects_return t (fst (create_prompts user_query))
        ++ after_fast t (invoke_nova_micro t (fst (create_prompts user_query)))
             (GenCreated (snd (create_prompts user_query)))
      else []
  | AtSubmitMicro micro_prompt pro_prompt =>
      micro_effects_call micro_prompt
      ++ micro_effects_return t micro_prompt
      ++ after_fast t (invoke_nova_micro t micro_prompt) (GenCreated pro_prompt)
  | AtSubmitPro pro_prompt =>
      micro_pending t (future_micro c)
      ++ after_fast t (micro_result t (future_micro c)) (GenCreated pro_prompt)
  | AtAwaitMicro =>
      micro_pending t (future_micro c)
      ++ after_fast t (micro_result t (future_micro c))
           (generator_of (future_pro_stream c))
  | AtAwaitPro => gen_output t (generator_of (future_pro_stream c))
  | AtLoop g _ => gen_output t g
  | Returned _ => []
  | Crashed _ => []
  end.

(** How the turn a configuration belongs to ends. *)
Definition pending_outcome (t : transport) (c : config) : main_point :=
  match point c with
  | AtStart user_query =>
      if encodable user_query then
        outcome_after_fast (invoke_nova_micro t (fst (create_prompts user_query)))
          (gen_chunks t (GenCreated (snd (create_prompts user_query))))
      else Crashed UnicodeEncodeError
  | AtSubmitMicro micro_prompt pro_prompt =>
      outcome_after_fast (invoke_nova_micro t micro_prompt)
        (gen_chunks t (GenCreated pro_prompt))
  | AtSubmitPro pro_prompt =>
      outcome_after_fast (micro_result t (future_micro c))
        (gen_chunks t (GenCreated pro_prompt))
  | AtAwaitMicro =>
      outcome_after_fast (micro_result t (future_micro c))
        (gen_chunks t (generator_of (future_pro_stream c)))
  | AtAwaitPro => loop_outcome [] (gen_chunks t (generator_of (future_pro_stream c)))
  | AtLoop g acc => loop_outcome acc (gen_chunks t g)
  | Returned acc => Returned acc
  | Crashed e => Crashed e
  end.

(** What the futures hold at each point of the main thread. *)
Definition coherent (c : config) : Prop :=
  match point c with
  | AtStart _ => future_micro c = MicroNotSubmitted
  | AtSubmitMicro _ _ => future_micro c = MicroNotSubmitted
  | AtSubmitPro _ => future_micro c <> MicroNotSubmitted
  | AtAwaitMicro =>
      future_micro c <> MicroNotSubmitted
      /\ future_pro_stream c <> ProNotSubmitted
  | AtAwaitPro =>
      (exists r, future_micro c = MicroDone r)
      /\ future_pro_stream c <> ProNotSubmitted
  | AtLoop _ _ => exists r, future_micro c = MicroDone r
  | Returned _ => exists r, future_micro c = MicroDone r
  | Crashed _ =>
      future_micro c = MicroNotSubmitted \/ exists r, future_micro c = MicroDone r
  end.

(** The invariant of a turn of [chat t q]: what was shown and what is
    still to come make up the one output of the turn, and the way the
    turn ends is settled from the start. *)
Definition turn_inv (t : transport) (q : pystr) (c : config) : Prop :=
  coherent c
  /\ visible_output (trace c) ++ pending_output t c = pending_output t (initial q)
  /\ pending_outcome t c = pending_outcome t (initial q).

Definition is_submit_micro (e : event) : bool :=
  match e with
  | ESubmitMicro => true
  | _ => false
  end.

Definition is_submit_pro (e : event) : bool :=
  match e with
  | ESubmitPro => true
  | _ => false
  end.

Definition is_await (e : event) : bool :=
  match e with
  | EAwaitMicro _ | EAwaitPro => true
  | _ => false
  end.

(** The main thread has passed the first, the second [submit]. *)
Definition micro_submitted (p : main_point) : bool :=
  match p with
  | AtStart _ | AtSubmitMicro _ _ | Crashed _ => false
  | _ => true
  end.

Definition pro_submitted (p : main_point) : bool :=
  match p with
  | AtStart _ | AtSubmitMicro _ _ | AtSubmitPro _ | Crashed _ => false
  | _ => true
  end.

Definition submit_inv (c : config) : Prop :=
  guarded is_submit_micro (fun e => is_submit_pro e || is_await e) (trace c) = true
  /\ guarded is_submit_pro is_await (trace c) = true
  /\ (micro_submitted (point c) = true -> existsb is_submit_micro (trace c) = true)
  /\ (pro_submitted (point c) = true -> existsb is_submit_pro (trace c) = true).

(** ** [NovaDualChatbot.__init__] and [main]

    [boto3.client] is given as a function from the settings it is called
    with to a client or an exception, [str.lower] as a function on
    strings, and the standard input as the list of the lines [input]
    will return. *)

Record client_settings : Type := {
  service_name : pystr;
  region_name : pystr;
  read_timeout : Z;
  connect_timeout : Z;
  max_attempts : Z
}.

Inductive console_line : Type :=
| SayInitOk (region : pystr)
| SayInitFailed (e : exn)
| SayInitHint
| SayBanner
| SayIntro
| SayRule
| SayMainInitFailed (e : exn)
| SayChooseMode
| SayModeInteractive
| SayModeTest
| SayInteractiveHelp
| SayBye
| SayTestMode (count : nat)
| SayTest (i count : nat)
| SayBadMode.

Inductive input_prompt : Type :=
| AskMode
| AskQuestion
| AskContinue.

Inductive console : Type :=
| Say (l : console_line)      (* print *)
| Ask (p : input_prompt)      (* input(prompt): the prompt is written *)
| Turn (user_query : pystr).  (* chatbot.chat(user_query) *)

(** What leaves a call other than its value: an [Exception], or the
    [SystemExit] of [sys.exit], which [except Exception] lets through. *)
Inductive raised : Type :=
| Exception (e : exn)
| SystemExit (status : Z).

Inductive main_error : Type :=
| EOFError                    (* input() at the end of the input *)
| ChatError (e : exn).        (* an exception out of chatbot.chat *)

Inductive ending : Type :=
| Returns
| Exits (status : Z)
| Fails (e : main_error).

Definition client_settings_for (region : pystr) : client_settings :=
  {| service_name := str "bedrock-runtime";
     region_name := region;
     read_timeout := 60;
     connect_timeout := 10;
     max_attempts := 3 |}.

Definition NovaDualChatbot_init
    (boto3_client : client_settings -> result transport) (region : pystr)
  : list console * (transport + raised) :=
  match boto3_client (client_settings_for region) with
  | Ok bedrock_runtime =>
      if encodable region then ([Say (SayInitOk region)], inl bedrock_runtime)
      else
        (* the print inside the try block raises *)
        ([Say (SayInitFailed UnicodeEncodeError); Say SayInitHint],
         inr (SystemExit 1))
  | Raise e => ([Say (SayInitFailed e); Say SayInitHint], inr (SystemExit 1))
  end.

(** One call of [chatbot.chat] from [main]: the turn, run to its end. *)
Definition run_chat (t : transport) (user_query : pystr) : main_point :=
  point (chat t user_query
           (eager_schedule
              (enough_fuel (invoke_model_with_response_stream t
                              (pro_request (snd (create_prompts user_query))))))).

Definition test_queries : list pystr :=
  [str "AWS Lambda와 EC2의 차이점을 설명해주세요.";
   str "머신러닝에서 오버피팅이란 무엇인가요?";
   str "Python의 리스트와 튜플의 차이점은?";
   str "클라우드 컴퓨팅의 장점을 알려주세요."].

Definition quit_words : list pystr := [str "quit"; str "exit"; str "종료"].

(** [user_input.lower() in ['quit', 'exit', '종료']] *)
Definition is_quit (lower : pystr -> pystr) (user_input : pystr) : bool :=
  existsb (pystr_eqb (lower user_input)) quit_words.

(** The [while True] loop of the interactive mode: what it shows, how it
    ends and the lines it leaves unread. *)
Fixpoint interactive_loop (lower : pystr -> pystr) (chatbot : transport)
    (stdin : list pystr) : list console * (ending * list pystr) :=
  match stdin with
  | [] => ([Ask AskQuestion], (Fails EOFError, []))
  | line :: rest =>
      let user_input := strip line in
      if is_quit lower user_input then
        ([Ask AskQuestion; Say SayBye], (Returns, rest))
      else
        match user_input with
        | [] =>
            let (out, e) := interactive_loop lower chatbot rest in
            (Ask AskQuestion :: out, e)
        | _ :: _ =>
            match run_chat chatbot user_input with
            | Crashed e =>
                ([Ask AskQuestion; Turn user_input], (Fails (ChatError e), rest))
            | _ =>
                let (out, e) := interactive_loop lower chatbot rest in
                (Ask AskQuestion :: Turn user_input :: out, e)
            end
        end
  end.

(** The [for] loop of the test mode, from the query numbered [i]. *)
Fixpoint test_loop (chatbot : transport) (i count : nat) (queries : list pystr)
    (stdin : list pystr) : list console * (ending * list pystr) :=
  match queries with
  | [] => ([], (Returns, stdin))
  | query :: queries' =>
      match run_chat chatbot query with
      | Crashed e =>
          ([Say (SayTest i count); Turn query], (Fails (ChatError e), stdin))
      | _ =>
          if Nat.ltb i count then
            match stdin with
            | [] =>
                ([Say (SayTest i count); Turn query; Ask AskContinue],
                 (Fails EOFError, []))
            | _ :: stdin' =>
                let (out, e) := test_loop chatbot (S i) count queries' stdin' in
                (Say (SayTest i count) :: Turn query :: Ask AskContinue :: out, e)
            end
          else
            let (out, e) := test_loop chatbot (S i) count queries' stdin in
            (Say (SayTest i count) :: Turn query :: out, e)
      end
  end.

Definition main_banner : list console := [Say SayBanner; Say SayIntro; Say SayRule].

Definition main_menu : list console :=
  [Say SayChooseMode; Say SayModeInteractive; Say SayModeTest; Ask AskMode].

Definition main (boto3_client : client_settings -> result transport)
    (lower : pystr -> pystr) (stdin : list pystr)
  : list console * (ending * list pystr) :=
  match NovaDualChatbot_init boto3_client (str "us-east-1") with
  | (out, inr (Exception e)) =>
      (main_banner ++ out ++ [Say (SayMainInitFailed e)], (Returns, stdin))
  | (out, inr (SystemExit status)) =>
      (main_banner ++ out, (Exits status, stdin))
  | (out, inl chatbot) =>
      match stdin with
      | [] => (main_banner ++ out ++ main_menu, (Fails EOFError, []))
      | line :: rest =>
          let mode := strip line in
          if pystr_eqb mode (str "1") then
            let (shown, e) := interactive_loop lower chatbot rest in
            (main_banner ++ out ++ main_menu ++ Say SayInteractiveHelp :: shown, e)
          else if pystr_eqb mode (str "2") then
            let (shown, e) :=
              test_loop chatbot 1 (List.length test_queries) test_queries rest in
            (main_banner ++ out ++ main_menu
               ++ Say (SayTestMode (List.length test_queries)) :: shown, e)
          else
            (main_banner ++ out ++ main_menu ++ [Say SayBadMode], (Returns, rest))
      end
  end.

(** The queries [main] passes to [chat], in order. *)
Definition turns (shown : list console) : list pystr :=
  flat_map (fun x => match x with Turn user_query => [user_query] | _ => [] end) shown.

Definition asks (shown : list console) : list input_prompt :=
  flat_map (fun x => match x with Ask p => [p] | _ => [] end) shown.

Definition nonempty (s : pystr) : bool :=
  match s with
  | [] => false
  | _ :: _ => true
  end.

Definition is_crashed (p : main_point) : bool :=
  match p with
  | Crashed _ => true
  | _ => false
  end.

(** [str.lower] on text that is all ASCII; a sample for the [lower] the
    definitions take. *)
Definition lower_ascii (s : pystr) : pystr :=
  map (fun c => if (65 <=? c) && (c <=? 90) then c + 32 else c) s.

Definition sample_client (t : transport) : client_settings -> result transport :=
  fun _ => Ok t.

(** A line of the interactive mode that is no command to stop and, when
    it holds a question, leads to a turn that returns. *)
Definition plain_line (lower : pystr -> pystr) (t : transport) (line : pystr) : Prop :=
  is_quit lower (strip line) = false
  /\ (nonempty (strip line) = true -> is_crashed (run_chat t (strip line)) = false).

(** What [main] shows before the loop of either mode. *)
Definition main_head (mode_line : console) : list console :=
  main_banner ++ [Say (SayInitOk (str "us-east-1"))] ++ main_menu ++ [mode_line].

(** One resumption, as the loop of [chat] sees it. *)
Definition loop_turn (t : transport) (body : list event * result resumption)
  : list event :=
  match snd body with
  | Ok (Some (PStr chunk, g')) =>
      if encodable chunk then fst body ++ ESinkChunk chunk :: gen_output t g'
      else fst body
  | Ok (Some (_, _)) => fst body
  | Ok None => fst body ++ [EPrint LogDone; EPrint LogRule]
  | Raise _ => fst body
  end.

(** * Properties *)

(** ** Strings *)

Lemma starts_with_app (needle post : pystr) :
  starts_with needle (needle ++ post) = true.
Proof.
  induction needle as [|a needle IH]; simpl.
  - reflexivity.
  - rewrite N.eqb_refl. exact IH.
Qed.

Lemma str_contains_unfold (needle hay : pystr) :
  str_contains needle hay =
  starts_with needle hay ||
  match hay with [] => false | _ :: hay' => str_contains needle hay' end.
Proof. destruct hay; reflexivity. Qed.

Lemma str_contains_app (pre needle post : pystr) :
  str_contains needle (pre ++ needle ++ post) = true.
Proof.
  induction pre as [|c pre IH].
  - simpl app. rewrite str_contains_unfold, starts_with_app. reflexivity.
  - simpl app. rewrite str_contains_unfold, IH. apply orb_true_r.
Qed.

Lemma lstrip_split (s : pystr) :
  exists l, s = l ++ lstrip s /\ forallb is_space l = true.
Proof.
  induction s as [|c s [l [Hs Hl]]].
  - exists []. split; reflexivity.
  - simpl. destruct (is_space c) eqn:Hc.
    + exists (c :: l). simpl. rewrite Hc, Hl. split; [now f_equal | reflexivity].
    + exists []. split; reflexivity.
Qed.

Lemma lstrip_clean (s : pystr) : starts_clean (lstrip s).
Proof.
  induction s as [|c s IH]; simpl.
  - exact I.
  - destruct (is_space c) eqn:Hc; [exact IH | exact Hc].
Qed.

Lemma forallb_rev {A} (f : A -> bool) (l : list A) :
  forallb f l = true -> forallb f (rev l) = true.
Proof.
  rewrite !forallb_forall. intros H x Hx. apply H, in_rev, Hx.
Qed.

Lemma rstrip_split (s : pystr) :
  exists r, s = rstrip s ++ r /\ forallb is_space r = true.
Proof.
  destruct (lstrip_split (rev s)) as [l [Hs Hl]].
  exists (rev l). split.
  - unfold rstrip. rewrite <- rev_app_distr, <- Hs, rev_involutive. reflexivity.
  - apply forallb_rev, Hl.
Qed.

Lemma rstrip_end_clean (s : pystr) : starts_clean (rev (rstrip s)).
Proof.
  unfold rstrip. rewrite rev_involutive. apply lstrip_clean.
Qed.

Lemma rstrip_start_clean (s : pystr) : starts_clean s -> starts_clean (rstrip s).
Proof.
  intros Hs. destruct (rstrip_split s) as [r [Heq _]].
  destruct (rstrip s) as [|c s'] eqn:E; [exact I |].
  rewrite Heq in Hs. exact Hs.
Qed.

Lemma strip_trimmed (s : pystr) : trimmed (strip s).
Proof.
  split.
  - apply rstrip_start_clean, lstrip_clean.
  - apply rstrip_end_clean.
Qed.

Lemma strip_split (s : pystr) :
  exists l r, s = l ++ strip s ++ r
              /\ forallb is_space l = true /\ forallb is_space r = true.
Proof.
  destruct (lstrip_split s) as [l [Hs Hl]].
  destruct (rstrip_split (lstrip s)) as [r [Hm Hr]].
  exists l, r. repeat split; try assumption.
  unfold strip. rewrite <- Hm. exact Hs.
Qed.

Lemma lstrip_blank (s : pystr) : forallb is_space s = true -> lstrip s = [].
Proof.
  induction s as [|c s IH]; simpl; [reflexivity |].
  intros H. apply andb_prop in H. destruct H as [Hc Hs].
  rewrite Hc. apply IH, Hs.
Qed.

Lemma strip_empty_iff (s : pystr) :
  strip s = [] <-> forallb is_space s = true.
Proof.
  split.
  - intros H. destruct (strip_split s) as [l [r [Hs [Hl Hr]]]].
    rewrite H in Hs. simpl in Hs. rewrite Hs, forallb_app, Hl, Hr. reflexivity.
  - intros H. unfold strip. rewrite (lstrip_blank s H). reflexivity.
Qed.

(** ** [create_prompts] *)

(** C8: [create_prompts] is a function of the query alone, so equal
    queries give identical prompt pairs; each prompt is a fixed head,
    then the query exactly as given, then a fixed tail, and the query is
    therefore a substring of both prompts for Python's [in]. *)
Theorem create_prompts_deterministic_verbatim :
  (forall q1 q2 : pystr, q1 = q2 -> create_prompts q1 = create_prompts q2)
  /\ (forall q : pystr,
        fst (create_prompts q) = micro_template_head ++ q ++ micro_template_tail
        /\ snd (create_prompts q) = pro_template_head ++ q ++ pro_template_tail
        /\ str_contains q (fst (create_prompts q)) = true
        /\ str_contains q (snd (create_prompts q)) = true).
Proof.
  split.
  - intros q1 q2 Heq. rewrite Heq. reflexivity.
  - intros q. unfold create_prompts. cbn [fst snd].
    repeat split; apply str_contains_app.
Qed.

Lemma create_prompts_deterministic_verbatim_witness :
  create_prompts (str "a <b> \n") = create_prompts (str "a <b> \n")
  /\ str_contains (str "a <b> \n") (fst (create_prompts (str "a <b> \n"))) = true.
Proof.
  destruct create_prompts_deterministic_verbatim as [Hdet Hsub].
  split.
  - apply Hdet. reflexivity.
  - apply (Hsub (str "a <b> \n")).
Defined.

(** ** [invoke_nova_micro] *)


Lemma py_getitem_ok (k : pystr) (v x : pyval) :
  py_getitem k v = Ok x -> exists kv, v = PDict kv /\ dict_get k kv = Some x.
Proof.
  destruct v as [| | | | | |kv]; cbn [py_getitem]; try discriminate.
  destruct (dict_get k kv) as [y|] eqn:Hk; [| discriminate].
  intros H. injection H as <-. exists kv. split; [reflexivity | exact Hk].
Qed.

(** The shape of every envelope from which a string is extracted. *)
Lemma extract_completion_text (response_body : pyval) (text : pystr) :
  extract_completion response_body = Ok (PStr text) ->
  exists envelope output message first others,
    response_body = PDict envelope
    /\ dict_get (str "output") envelope = Some (PDict output)
    /\ dict_get (str "message") output = Some (PDict message)
    /\ dict_get (str "content") message = Some (PList (PDict first :: others))
    /\ dict_get (str "text") first = Some (PStr text).
Proof.
  unfold extract_completion. intros H.
  destruct (py_getitem (str "output") response_body) as [o|] eqn:Ho; [| discriminate].
  cbn [bind] in H.
  destruct (py_getitem (str "message") o) as [m|] eqn:Hm; [| discriminate].
  cbn [bind] in H.
  destruct (py_getitem (str "content") m) as [c|] eqn:Hc; [| discriminate].
  cbn [bind] in H.
  destruct (py_getitem0 c) as [f|] eqn:Hf; [| discriminate].
  cbn [bind] in H.
  apply py_getitem_ok in Ho, Hm, Hc, H.
  destruct Ho as [envelope [-> Ho]]. destruct Hm as [output [-> Hm]].
  destruct Hc as [message [-> Hc]]. destruct H as [first [-> Ht]].
  destruct c as [| | | |cs|l|kv]; cbn [py_getitem0] in Hf; try discriminate.
  - destruct cs; discriminate.
  - destruct l as [|x others]; [discriminate |]. injection Hf as ->.
    exists envelope, output, message, first, others. repeat split; assumption.
Qed.

(** C9: when the call returns an envelope whose [output] holds a
    [message] whose [content] list starts with a block whose [text] is
    the string [text], the result is [text] with the whitespace at both
    ends removed; the result is empty exactly when [text] is blank, and
    that is the normal return path.  Every call whose [try] block
    succeeds is of this kind. *)
Theorem invoke_nova_micro_returns_stripped (t : transport) (prompt : pystr) :
  (forall (envelope output message first : list (pystr * pyval))
          (others : list pyval) (text : pystr),
      invoke_model t (micro_request prompt)
        = InvokeReturns (Some (ReadBytes (Ok (PDict envelope)))) ->
      dict_get (str "output") envelope = Some (PDict output) ->
      dict_get (str "message") output = Some (PDict message) ->
      dict_get (str "content") message = Some (PList (PDict first :: others)) ->
      dict_get (str "text") first = Some (PStr text) ->
      snd (micro_try t prompt) = Ok (strip text)
      /\ invoke_nova_micro t prompt = strip text
      /\ (exists l r, text = l ++ invoke_nova_micro t prompt ++ r
                      /\ forallb is_space l = true /\ forallb is_space r = true)
      /\ trimmed (invoke_nova_micro t prompt)
      /\ (invoke_nova_micro t prompt = [] <-> forallb is_space text = true)
      /\ micro_effects_return t prompt = [EPrint LogMicroDone])
  /\ (forall completion : pystr,
        snd (micro_try t prompt) = Ok completion ->
        exists (envelope output message first : list (pystr * pyval))
               (others : list pyval) (text : pystr),
          invoke_model t (micro_request prompt)
            = InvokeReturns (Some (ReadBytes (Ok (PDict envelope))))
          /\ dict_get (str "output") envelope = Some (PDict output)
          /\ dict_get (str "message") output = Some (PDict message)
          /\ dict_get (str "content") message = Some (PList (PDict first :: others))
          /\ dict_get (str "text") first = Some (PStr text)
          /\ completion = strip text
          /\ invoke_nova_micro t prompt = strip text).
Proof.
  split.
  - intros envelope output message first others text Hreply Ho Hm Hc Ht.
    assert (Htry : micro_try t prompt = ([EPrint LogMicroDone], Ok (strip text))).
    { unfold micro_try, micro_completion. rewrite Hreply. cbn [read_body bind].
      unfold extract_completion. cbn [py_getitem]. rewrite Ho. cbn [bind py_getitem].
      rewrite Hm. cbn [bind py_getitem]. rewrite Hc. cbn [bind py_getitem0 py_getitem].
      rewrite Ht. reflexivity. }
    assert (Hres : invoke_nova_micro t prompt = strip text).
    { unfold invoke_nova_micro. rewrite Htry. reflexivity. }
    rewrite Hres. repeat split.
    + rewrite Htry. reflexivity.
    + apply strip_split.
    + apply strip_trimmed.
    + apply strip_trimmed.
    + apply strip_empty_iff.
    + apply strip_empty_iff.
    + unfold micro_effects_return. rewrite Htry. reflexivity.
  - intros completion Hok.
    unfold invoke_nova_micro. unfold micro_try in *.
    destruct (micro_completion t prompt) as [v|e] eqn:Hv; [| discriminate].
    cbn [snd micro_except] in *.
    destruct v as [| | | |text| |]; try discriminate.
    cbn [py_strip] in *. injection Hok as <-.
    unfold micro_completion in Hv.
    destruct (invoke_model t (micro_request prompt)) as [e|[[e|[body|e]]|]];
      cbn [read_body bind] in Hv; try discriminate.
    destruct (extract_completion_text body text Hv)
      as [envelope [output [message [first [others [-> [Ho [Hm [Hc Ht]]]]]]]]].
    exists envelope, output, message, first, others, text.
    repeat split; assumption.
Qed.

Lemma invoke_nova_micro_returns_stripped_witness :
  invoke_nova_micro hello_transport (str "p") = strip (str "  On it! ")
  /\ strip (str "  On it! ") = str "On it!".
Proof.
  split.
  - refine (proj1 (proj2 (proj1 (invoke_nova_micro_returns_stripped
             hello_transport (str "p"))
             [(str "output",
               PDict [(str "message",
                       PDict [(str "role", json_text "assistant");
                              (str "content",
                               PList [PDict [(str "text", json_text "  On it! ")]])])])]
             [(str "message",
               PDict [(str "role", json_text "assistant");
                      (str "content",
                       PList [PDict [(str "text", json_text "  On it! ")]])])]
             [(str "role", json_text "assistant");
              (str "content", PList [PDict [(str "text", json_text "  On it! ")]])]
             [(str "text", json_text "  On it! ")] [] (str "  On it! ") _ _ _ _ _)));
      vm_compute; reflexivity.
  - vm_compute. reflexivity.
Defined.



Lemma step_main_start (t : transport) (q : pystr) (fm : micro_future)
    (fp : pro_future) (tr : list event) :
  encodable q = true ->
  step_main t {| point := AtStart q; future_micro := fm;
                 future_pro_stream := fp; trace := tr |}
  = Some {| point := AtSubmitMicro (fst (create_prompts q)) (snd (create_prompts q));
            future_micro := fm; future_pro_stream := fp;
            trace := tr ++ [EPrint (LogQuestion q); EPrint LogRule] |}.
Proof.
  intros Hq. unfold step_main. cbn [point future_micro future_pro_stream trace].
  rewrite Hq. destruct (create_prompts q) as [micro_prompt pro_prompt]. reflexivity.
Qed.

Lemma run_eager_from_submit (t : transport) (micro_prompt pro_prompt : pystr)
    (tr : list event) :
  encodable (invoke_nova_micro t micro_prompt) = true ->
  run t [MainThread; MicroWorker; MicroWorker; MainThread; ProWorker;
         MainThread; MainThread]
    {| point := AtSubmitMicro micro_prompt pro_prompt;
       future_micro := MicroNotSubmitted;
       future_pro_stream := ProNotSubmitted; trace := tr |}
  = {| point := AtLoop (GenCreated pro_prompt) [];
       future_micro := MicroDone (invoke_nova_micro t micro_prompt);
       future_pro_stream := ProDone (GenCreated pro_prompt);
       trace := ((((((tr ++ [ESubmitMicro]) ++ micro_effects_call micro_prompt)
                    ++ micro_effects_return t micro_prompt) ++ [ESubmitPro]) ++ [])
                 ++ fast_block (invoke_nova_micro t micro_prompt)) ++ [EAwaitPro] |}.
Proof.
  intros Hfast.
  cbn [run step step_main step_micro step_pro stream_nova_pro
       point future_micro future_pro_stream trace].
  rewrite Hfast. reflexivity.
Qed.

(** The configuration [chat] reaches when both workers run as soon as
    they are submitted and the main thread is about to pull, for a query
    and a fast answer that can be printed. *)
Lemma chat_eager_prefix (t : transport) (q : pystr) :
  encodable q = true ->
  encodable (invoke_nova_micro t (fst (create_prompts q))) = true ->
  chat t q (eager_schedule 0) =
  {| point := AtLoop (GenCreated (snd (create_prompts q))) [];
     future_micro := MicroDone (invoke_nova_micro t (fst (create_prompts q)));
     future_pro_stream := ProDone (GenCreated (snd (create_prompts q)));
     trace :=
       [EPrint (LogQuestion q); EPrint LogRule; ESubmitMicro]
       ++ micro_effects_call (fst (create_prompts q))
       ++ micro_effects_return t (fst (create_prompts q))
       ++ [ESubmitPro]
       ++ fast_block (invoke_nova_micro t (fst (create_prompts q)))
       ++ [EAwaitPro] |}.
Proof.
  intros Hq Hfast.
  unfold chat, eager_schedule, initial. cbn [repeat app].
  change (run t (MainThread :: ?l) ?c)
    with (match step t MainThread c with
          | Some c' => run t l c'
          | None => run t l c
          end).
  cbn [step]. rewrite (step_main_start t q _ _ _ Hq).
  rewrite (run_eager_from_submit t _ _ _ Hfast).
  f_equal. rewrite app_nil_r. repeat rewrite <- app_assoc. reflexivity.
Qed.



(** ** [stream_nova_pro] *)


Lemma snd_pro_except (body : list event * result resumption) :
  snd (pro_except body) =
  match snd body with
  | Raise _ => Ok (Some (PStr PRO_FALLBACK, GenInHandler))
  | Ok r => Ok r
  end.
Proof. destruct body as [effects [r|e]]; reflexivity. Qed.

Lemma gen_next_never_raises (t : transport) (g : generator) :
  exists r, snd (gen_next t g) = Ok r.
Proof.
  destruct g; cbn [gen_next snd]; try (eexists; reflexivity);
    rewrite snd_pro_except;
    match goal with |- context [snd ?b] => destruct (snd b) end;
    eexists; reflexivity.
Qed.

Lemma snd_run_loop_skip (ev : stream_event) (rest : list stream_event) (fin : stream_end) :
  handle_event ev = Ok None ->
  snd (run_loop (ev :: rest) fin) = snd (run_loop rest fin).
Proof.
  intros H. cbn [run_loop]. rewrite H. destruct (run_loop rest fin). reflexivity.
Qed.

Lemma drain_handler (t : transport) (fuel : nat) :
  drain t (S fuel) GenInHandler = Finished [].
Proof. reflexivity. Qed.

Lemma drain_in_loop (t : transport) (events : list stream_event) (fin : stream_end) :
  forall fuel, (List.length events + 2 <= fuel)%nat ->
  drain t fuel (GenInLoop events fin) = Finished (loop_chunks events fin).
Proof.
  induction events as [|ev rest IH]; intros fuel Hfuel.
  - destruct fuel as [|[|fuel]]; [simpl in Hfuel; lia .. |].
    destruct fin; reflexivity.
  - destruct fuel as [|fuel]; [simpl in Hfuel; lia |].
    cbn [List.length] in Hfuel.
    cbn [drain gen_next loop_chunks]. rewrite snd_pro_except.
    destruct (handle_event ev) as [[v|]|e] eqn:Hev.
    + cbn [run_loop]. rewrite Hev. cbn [snd].
      rewrite IH by lia. reflexivity.
    + rewrite (snd_run_loop_skip ev rest fin Hev).
      specialize (IH (S fuel) ltac:(lia)).
      cbn [drain gen_next] in IH. rewrite snd_pro_except in IH. exact IH.
    + cbn [run_loop]. rewrite Hev. cbn [snd].
      destruct fuel as [|fuel]; [simpl in Hfuel; lia |].
      rewrite drain_handler. reflexivity.
Qed.

Lemma snd_pro_try_start_stream (t : transport) (prompt : pystr) (s : event_stream) :
  invoke_model_with_response_stream t (pro_request prompt)
    = StreamInvokeReturns (Some s) ->
  snd (pro_try_start t prompt) = snd (run_loop (stream_events s) (stream_final s)).
Proof.
  intros H. unfold pro_try_start. rewrite H.
  destruct (run_loop (stream_events s) (stream_final s)). reflexivity.
Qed.

(** Pulling a fresh generator to its end gives the chunks of the reply,
    and the generator ends by itself. *)
Lemma drain_created (t : transport) (prompt : pystr) (fuel : nat) :
  (enough_fuel (invoke_model_with_response_stream t (pro_request prompt)) <= fuel)%nat ->
  drain t fuel (GenCreated prompt)
  = Finished (reply_chunks (invoke_model_with_response_stream t (pro_request prompt))).
Proof.
  intros Hfuel.
  destruct (invoke_model_with_response_stream t (pro_request prompt))
    as [e|[s|]] eqn:Hreply; cbn [enough_fuel reply_chunks] in *.
  - destruct fuel as [|[|fuel]]; [lia .. |].
    cbn [drain gen_next]. rewrite snd_pro_except.
    unfold pro_try_start. rewrite Hreply. reflexivity.
  - pose proof (drain_in_loop t (stream_events s) (stream_final s) fuel Hfuel) as Hloop.
    destruct fuel as [|fuel]; [lia |].
    cbn [drain gen_next] in *. rewrite snd_pro_except in *.
    rewrite (snd_pro_try_start_stream t prompt s Hreply). exact Hloop.
  - destruct fuel as [|fuel]; [lia |].
    cbn [drain gen_next]. rewrite snd_pro_except.
    unfold pro_try_start. rewrite Hreply. reflexivity.
Qed.

Lemma handle_event_delta_text (ev : stream_event) (r : option pyval) :
  handle_event ev = Ok r -> r = delta_text ev.
Proof.
  destruct ev as [|[|e|v]]; cbn [handle_event decode_chunk bind delta_text].
  - intros H. injection H as <-. reflexivity.
  - discriminate.
  - discriminate.
  - destruct v as [| | | |s|l|kv]; cbn [py_in bind]; try discriminate.
    + destruct (str_contains _ s); cbn [py_getitem bind]; [discriminate |].
      intros H. injection H as <-. reflexivity.
    + destruct (existsb _ l); cbn [py_getitem bind]; [discriminate |].
      intros H. injection H as <-. reflexivity.
    + cbn [py_getitem].
      destruct (dict_get (str "contentBlockDelta") kv) as [block|]; cbn [bind].
      2: { intros H. injection H as <-. reflexivity. }
      destruct block as [| | | | | |b]; cbn [py_get bind]; try discriminate.
      destruct (dict_get (str "delta") b) as [delta|]; cbn [py_get bind].
      2: { cbn [dict_get truthy]. intros H. injection H as <-. reflexivity. }
      destruct delta as [| | | | | |d]; cbn [py_get bind]; try discriminate.
      destruct (dict_get (str "text") d) as [text|].
      * destruct (truthy text); intros H; injection H as <-; reflexivity.
      * cbn [truthy]. intros H. injection H as <-. reflexivity.
Qed.

Lemma loop_chunks_handled (events : list stream_event) :
  Forall handled events ->
  loop_chunks events EndOfStream = delta_texts events.
Proof.
  induction 1 as [|ev rest [r Hev] _ IH]; [reflexivity |].
  cbn [loop_chunks delta_texts flat_map]. rewrite Hev.
  rewrite <- (handle_event_delta_text ev r Hev).
  destruct r; cbn [app]; f_equal; exact IH.
Qed.




Lemma delta_texts_truthy (events : list stream_event) :
  Forall (fun v => truthy v = true) (delta_texts events).
Proof.
  induction events as [|ev rest IH]; [constructor |].
  cbn [delta_texts flat_map].
  destruct (delta_text ev) as [v|] eqn:Hv; cbn [app]; [| exact IH].
  constructor; [| exact IH].
  destruct ev as [|[| |[| | | | | |kv]]]; cbn [delta_text] in Hv; try discriminate.
  destruct (dict_get (str "contentBlockDelta") kv) as [[| | | | | |b]|]; try discriminate.
  destruct (dict_get (str "delta") b) as [[| | | | | |d]|]; try discriminate.
  destruct (dict_get (str "text") d) as [text|]; try discriminate.
  destruct (truthy text) eqn:Ht; [| discriminate].
  injection Hv as <-. exact Ht.
Qed.








(** Events that cannot be decoded make the loop body raise. *)
Lemma undecodable_raises (b : chunk_bytes) (e : exn) :
  decode_chunk b = Raise e -> handle_event (Chunk b) = Raise e.
Proof.
  intros H. cbn [handle_event]. rewrite H. reflexivity.
Qed.




(** *** The loop of [chat] over the generator *)

Lemma run_app (t : transport) (s1 s2 : list thread) (c : config) :
  run t (s1 ++ s2) c = run t s2 (run t s1 c).
Proof.
  revert c. induction s1 as [|th s1 IH]; intros c; [reflexivity |].
  cbn [app run]. destruct (step t th c); apply IH.
Qed.

Lemma run_main_returned (t : transport) (n : nat) (c : config) (acc : pystr) :
  point c = Returned acc -> point (run t (repeat MainThread n) c) = Returned acc.
Proof.
  intros Hc. induction n as [|n IH]; [exact Hc |].
  cbn [repeat run step]. unfold step_main. rewrite Hc. exact IH.
Qed.

Lemma drained_cons_finished (v : pyval) (d : drained) (chunks : list pyval) :
  drained_cons v d = Finished chunks ->
  exists rest, d = Finished rest /\ chunks = v :: rest.
Proof.
  destruct d as [l|l e|l]; cbn [drained_cons]; try discriminate.
  intros H. injection H as <-. exists l. split; reflexivity.
Qed.

(** When the generator yields only strings that can be written, the loop
    of [chat] ends with [full_pro_response] extended by the chunks,
    joined in order. *)
Lemma run_pulls (t : transport) (n : nat) :
  forall (g : generator) (acc : pystr) (fm : micro_future) (fp : pro_future)
         (tr : list event) (chunks : list pyval),
    drain t n g = Finished chunks ->
    Forall is_writable chunks ->
    point (run t (repeat MainThread n)
             {| point := AtLoop g acc; future_micro := fm;
                future_pro_stream := fp; trace := tr |})
    = Returned (acc ++ join_chunks chunks).
Proof.
  induction n as [|n IH]; intros g acc fm fp tr chunks Hdrain Htext.
  - discriminate.
  - cbn [drain] in Hdrain. cbn [repeat run step]. unfold step_main.
    cbn [point future_micro future_pro_stream trace].
    destruct (gen_next t g) as [effects [[[v g']|]|e]]; cbn [snd] in Hdrain.
    + apply drained_cons_finished in Hdrain. destruct Hdrain as [rest [Hrest ->]].
      inversion Htext as [|v' rest' Hv Hrest']. subst.
      destruct v; try contradiction. cbn [is_writable] in Hv. rewrite Hv.
      rewrite (IH g' (acc ++ s) fm fp _ rest Hrest Hrest').
      cbn [join_chunks]. rewrite app_assoc. reflexivity.
    + injection Hdrain as <-. cbn [join_chunks]. rewrite app_nil_r.
      apply run_main_returned. reflexivity.
    + discriminate.
Qed.

Lemma chat_returns_joined (t : transport) (q : pystr) (n : nat) :
  let reply := invoke_model_with_response_stream t
                 (pro_request (snd (create_prompts q))) in
  encodable q = true ->
  encodable (invoke_nova_micro t (fst (create_prompts q))) = true ->
  Forall is_writable (reply_chunks reply) ->
  (enough_fuel reply <= n)%nat ->
  point (chat t q (eager_schedule n)) = Returned (join_chunks (reply_chunks reply)).
Proof.
  intros reply Hq Hfast Htext Hfuel.
  assert (Hsplit : chat t q (eager_schedule n)
                   = run t (repeat MainThread n) (chat t q (eager_schedule 0))).
  { unfold chat, eager_schedule. rewrite run_app. cbn [repeat].
    rewrite app_nil_r. reflexivity. }
  rewrite Hsplit, (chat_eager_prefix t q Hq Hfast).
  rewrite (run_pulls t n _ [] _ _ _ (reply_chunks reply));
    [reflexivity | | exact Htext].
  apply drain_created. exact Hfuel.
Qed.

(** C7: for a stream in which nothing raises, the chunks yielded are the
    texts of the delta events that carry one, in the order of the events;
    every other event adds nothing (a control event and a delta with an
    empty text carry none), and every chunk is true as a condition (a
    string chunk is not empty).  When the query, the fast answer and the
    texts are strings that can be written, [chat] returns with the
    chunks joined in order.  For three delta events
    ["Hel"], ["lo, "], ["world!"] between two control events, the chunks
    joined give ["Hello, world!"]. *)
Theorem stream_nova_pro_yields_delta_texts :
  (forall (t : transport) (prompt : pystr) (s : event_stream) (fuel : nat),
     invoke_model_with_response_stream t (pro_request prompt)
       = StreamInvokeReturns (Some s) ->
     error_free s ->
     (List.length (stream_events s) + 2 <= fuel)%nat ->
     drain t fuel (GenCreated prompt) = Finished (delta_texts (stream_events s))
     /\ Forall (fun v => truthy v = true) (delta_texts (stream_events s))
     /\ (Forall is_writable (delta_texts (stream_events s)) ->
         forall q, snd (create_prompts q) = prompt ->
           encodable q = true ->
           encodable (invoke_nova_micro t (fst (create_prompts q))) = true ->
           point (chat t q (eager_schedule fuel))
           = Returned (join_chunks (delta_texts (stream_events s)))))
  /\ delta_text message_start_event = None
  /\ delta_text block_stop_event = None
  /\ delta_text NoChunk = None
  /\ delta_text (delta_event (PStr [])) = None
  /\ delta_texts hello_events
       = [json_text "Hel"; json_text "lo, "; json_text "world!"]
  /\ join_chunks (delta_texts hello_events) = str "Hello, world!"
  /\ point (chat hello_transport (str "hi") (eager_schedule 7))
       = Returned (str "Hello, world!").
Proof.
  split; [| repeat split; vm_compute; reflexivity].
  intros t prompt s fuel Hreply [Hfin Hev] Hfuel.
  assert (Hchunks : reply_chunks (invoke_model_with_response_stream t (pro_request prompt))
                    = delta_texts (stream_events s)).
  { rewrite Hreply. cbn [reply_chunks]. rewrite Hfin. apply loop_chunks_handled, Hev. }
  assert (Henough : (enough_fuel (invoke_model_with_response_stream t (pro_request prompt))
                     <= fuel)%nat).
  { rewrite Hreply. exact Hfuel. }
  split; [| split; [apply delta_texts_truthy |]].
  - rewrite (drain_created t prompt fuel Henough), Hchunks. reflexivity.
  - intros Htext q Hq Hencq Hencfast. subst prompt.
    rewrite <- Hchunks. apply chat_returns_joined.
    + exact Hencq.
    + exact Hencfast.
    + rewrite Hchunks. exact Htext.
    + exact Henough.
Qed.

Lemma stream_nova_pro_yields_delta_texts_witness :
  drain hello_transport 7 (GenCreated (str "p"))
    = Finished (delta_texts hello_events)
  /\ point (chat hello_transport (str "hi") (eager_schedule 7))
     = Returned (join_chunks (delta_texts hello_events)).
Proof.
  split.
  - refine (proj1 (proj1 stream_nova_pro_yields_delta_texts hello_transport (str "p")
              {| stream_events := hello_events; stream_final := EndOfStream |} 7%nat _ _ _)).
    + reflexivity.
    + split; [reflexivity |].
      repeat (constructor; [eexists; vm_compute; reflexivity |]). constructor.
    + vm_compute. lia.
  - refine (proj2 (proj2 (proj1 stream_nova_pro_yields_delta_texts hello_transport
              (snd (create_prompts (str "hi")))
              {| stream_events := hello_events; stream_final := EndOfStream |}
              7%nat _ _ _)) _ (str "hi") eq_refl _ _).
    + reflexivity.
    + split; [reflexivity |].
      repeat (constructor; [eexists; vm_compute; reflexivity |]). constructor.
    + vm_compute. lia.
    + repeat (constructor; [vm_compute; reflexivity |]). constructor.
    + vm_compute. reflexivity.
    + vm_compute. reflexivity.
Defined.

(** ** Order of effects in [chat] *)

Lemma guarded_app (P Q : event -> bool) (tr block : list event) :
  guarded P Q tr = true ->
  existsb P tr = true \/ guarded P Q block = true ->
  guarded P Q (tr ++ block) = true.
Proof.
  induction tr as [|e tr IH]; cbn [guarded existsb app]; intros Htr Hblock.
  - destruct Hblock as [Hex|Hblock]; [discriminate | exact Hblock].
  - destruct (P e); [reflexivity |].
    apply andb_prop in Htr. destruct Htr as [HQ Htr].
    rewrite HQ. cbn [andb orb] in *. apply IH; assumption.
Qed.

Lemma guarded_led (P Q : event -> bool) (e : event) (block : list event) :
  P e = true -> guarded P Q (e :: block) = true.
Proof. intros H. cbn [guarded]. rewrite H. reflexivity. Qed.

Lemma guarded_quiet (P Q : event -> bool) (block : list event) :
  forallb (fun e => negb (Q e)) block = true -> guarded P Q block = true.
Proof.
  induction block as [|e block IH]; cbn [forallb guarded]; [reflexivity |].
  intros H. apply andb_prop in H. destruct H as [He Hb].
  destruct (P e); [reflexivity |]. rewrite He, (IH Hb). reflexivity.
Qed.

Lemma guarded_split (P Q : event -> bool) (pre : list event) (e : event)
    (post : list event) :
  guarded P Q (pre ++ e :: post) = true ->
  Q e = true -> P e = false -> existsb P pre = true.
Proof.
  induction pre as [|e' pre IH]; cbn [app guarded existsb]; intros Hg HQ HP.
  - rewrite HQ, HP in Hg. discriminate.
  - destruct (P e'); [reflexivity |]. cbn [orb].
    apply andb_prop in Hg. destruct Hg as [_ Hg]. apply IH; assumption.
Qed.

Lemma existsb_app_l (P : event -> bool) (tr block : list event) :
  existsb P tr = true -> existsb P (tr ++ block) = true.
Proof. intros H. rewrite existsb_app, H. reflexivity. Qed.

Lemma existsb_app_r (P : event -> bool) (tr block : list event) :
  existsb P block = true -> existsb P (tr ++ block) = true.
Proof. intros H. rewrite existsb_app, H. apply orb_true_r. Qed.

Lemma pystr_eqb_refl (s : pystr) : pystr_eqb s s = true.
Proof.
  induction s as [|c s IH]; cbn [pystr_eqb]; [reflexivity |].
  rewrite N.eqb_refl. exact IH.
Qed.

Lemma pystr_eqb_eq (a b : pystr) : pystr_eqb a b = true -> a = b.
Proof.
  revert b. induction a as [|x a IH]; intros [|y b]; cbn [pystr_eqb];
    try discriminate; [reflexivity |].
  intros H. apply andb_prop in H. destruct H as [Hx Hab].
  apply N.eqb_eq in Hx. rewrite Hx, (IH b Hab). reflexivity.
Qed.

Lemma run_invariant (t : transport) (I : config -> Prop) :
  (forall th c c', I c -> step t th c = Some c' -> I c') ->
  forall schedule c, I c -> I (run t schedule c).
Proof.
  intros Hstep schedule. induction schedule as [|th schedule IH]; intros c Hc.
  - exact Hc.
  - cbn [run]. destruct (step t th c) as [c'|] eqn:Hs.
    + apply IH. exact (Hstep th c c' Hc Hs).
    + apply IH. exact Hc.
Qed.

Section FastFirst.

Variable t : transport.
Variable q : pystr.

(** [P] holds of an effect of the block that follows
    [future_micro.result()], [Q] only of effects that come later. *)
Variables P Q : event -> bool.
Hypothesis P_fast :
  existsb P (fast_block (invoke_nova_micro t (fst (create_prompts q)))) = true.
Hypothesis Q_late : forall e, Q e = true -> late e = true.

Lemma quiet_block (block : list event) :
  forallb (fun e => negb (late e)) block = true ->
  guarded P Q block = true.
Proof.
  intros H. apply guarded_quiet.
  rewrite forallb_forall in *. intros e He. specialize (H e He).
  destruct (Q e) eqn:HQ; [| reflexivity].
  rewrite (Q_late e HQ) in H. discriminate.
Qed.

Lemma fast_first_initial : fast_first_inv t q P Q (initial q).
Proof. repeat split. Qed.

Lemma fast_first_step (th : thread) (c c' : config) :
  fast_first_inv t q P Q c -> step t th c = Some c' -> fast_first_inv t q P Q c'.
Proof.
  destruct c as [pt fm fp tr].
  unfold fast_first_inv, point_consistent.
  cbn [point future_micro future_pro_stream trace].
  intros [Hg [Hm Hp]] Hstep.
  destruct th; cbn [step] in Hstep.
  - unfold step_main in Hstep.
    cbn [point future_micro future_pro_stream trace] in Hstep.
    destruct pt as [user_query|mp pp|pp| | |g acc|acc|e].
    + destruct (encodable user_query).
      * unfold create_prompts in Hstep. injection Hstep as <-.
        cbn [point future_micro future_pro_stream trace].
        subst user_query.
        repeat split; [| exact Hm].
        apply guarded_app; [exact Hg | right; apply quiet_block; reflexivity].
      * injection Hstep as <-. cbn [point future_micro future_pro_stream trace].
        repeat split; assumption.
    + injection Hstep as <-. cbn [point future_micro future_pro_stream trace].
      repeat split; [| exact Hp].
      apply guarded_app; [exact Hg | right; apply quiet_block; reflexivity].
    + injection Hstep as <-. cbn [point future_micro future_pro_stream trace].
      repeat split; [| exact Hm].
      apply guarded_app; [exact Hg | right; apply quiet_block; reflexivity].
    + destruct fm as [|p|p|r]; try discriminate.
      cbn [micro_consistent] in Hm. subst r.
      destruct (encodable (invoke_nova_micro t (fst (create_prompts q))));
        injection Hstep as <-; cbn [point future_micro future_pro_stream trace].
      * repeat split.
        -- apply guarded_app; [exact Hg | right; apply quiet_block; reflexivity].
        -- apply existsb_app_r, P_fast.
      * repeat split.
        apply guarded_app; [exact Hg | right; apply quiet_block; reflexivity].
    + destruct fp as [|p|g]; try discriminate.
      injection Hstep as <-. cbn [point future_micro future_pro_stream trace].
      repeat split; [| exact Hm |].
      * apply guarded_app; [exact Hg | left; exact Hp].
      * apply existsb_app_l, Hp.
    + destruct (gen_next t g) as [effects [[[v g']|]|e]];
        [destruct v as [| | | |chunk| |]; [| | | |destruct (encodable chunk)| |] |..];
        injection Hstep as <-;
        cbn [point future_micro future_pro_stream trace];
        (split; [| split]);
        solve [ apply guarded_app; [exact Hg | left; exact Hp]
              | exact Hm
              | apply existsb_app_l, Hp
              | exact I ].
    + discriminate.
    + discriminate.
  - unfold step_micro in Hstep.
    cbn [point future_micro future_pro_stream trace] in Hstep.
    destruct fm as [|p|p|r]; try discriminate;
      injection Hstep as <-; cbn [point future_micro future_pro_stream trace];
      cbn [micro_consistent] in Hm; subst p.
    + repeat split.
      * apply guarded_app; [exact Hg | right; apply quiet_block; reflexivity].
      * destruct pt; try exact Hp; apply existsb_app_l, Hp.
    + repeat split.
      * apply guarded_app; [exact Hg | right; apply quiet_block].
        unfold micro_effects_return, micro_try.
        destruct (micro_completion t (fst (create_prompts q))) as [v|e]; [| reflexivity].
        destruct (py_strip v); reflexivity.
      * destruct pt; try exact Hp; apply existsb_app_l, Hp.
  - unfold step_pro in Hstep.
    cbn [point future_micro future_pro_stream trace] in Hstep.
    destruct fp as [|p|g]; try discriminate.
    cbn [stream_nova_pro] in Hstep.
    injection Hstep as <-. cbn [point future_micro future_pro_stream trace].
    rewrite app_nil_r. repeat split; assumption.
Qed.

Lemma fast_first (schedule : list thread) :
  guarded P Q (trace (chat t q schedule)) = true.
Proof.
  apply (run_invariant t (fast_first_inv t q P Q) fast_first_step schedule
           (initial q) fast_first_initial).
Qed.

End FastFirst.

Lemma hello_trace :
  trace (chat hello_transport (str "hi") (pro_first_schedule 4))
  = (hello_until_await_pro ++ [EPull; EPrint LogProStart])
    ++ EInvokeStream (pro_request (snd (create_prompts (str "hi"))))
    :: hello_after_request.
Proof. vm_compute. reflexivity. Qed.

Lemma shows_fast_In (r : pystr) (tr : list event) :
  existsb (shows_fast r) tr = true -> In (ESinkFast r) tr.
Proof.
  intros H. apply existsb_exists in H. destruct H as [e [Hin He]].
  destruct e; try discriminate. cbn [shows_fast] in He.
  apply pystr_eqb_eq in He. subst. exact Hin.
Qed.

Lemma awaits_fast_In (r : pystr) (tr : list event) :
  existsb (awaits_fast r) tr = true -> In (EAwaitMicro r) tr.
Proof.
  intros H. apply existsb_exists in H. destruct H as [e [Hin He]].
  destruct e; try discriminate. cbn [awaits_fast] in He.
  apply pystr_eqb_eq in He. subst. exact Hin.
Qed.

(** C6: under every schedule, whenever the main thread asks the
    generator for a chunk or writes one, the print of the fast result,
    which is the whole value [invoke_nova_micro] returned for the fast
    prompt, is already in the trace. *)
Theorem fast_result_shown_before_chunks
    (t : transport) (q : pystr) (schedule : list thread)
    (pre : list event) (e : event) (post : list event) :
  trace (chat t q schedule) = pre ++ e :: post ->
  consumes_chunk e = true ->
  In (ESinkFast (invoke_nova_micro t (fst (create_prompts q)))) pre.
Proof.
  intros Htrace He. apply shows_fast_In.
  apply (guarded_split _ consumes_chunk pre e post).
  - rewrite <- Htrace. apply fast_first.
    + cbn [fast_block existsb shows_fast]. rewrite pystr_eqb_refl. reflexivity.
    + intros e' He'. destruct e'; try discriminate; reflexivity.
  - exact He.
  - destruct e; try discriminate; reflexivity.
Qed.

Lemma fast_result_shown_before_chunks_witness :
  In (ESinkFast (invoke_nova_micro hello_transport (fst (create_prompts (str "hi")))))
     hello_until_await_pro.
Proof.
  refine (fast_result_shown_before_chunks hello_transport (str "hi")
            (pro_first_schedule 4) hello_until_await_pro EPull
            (EPrint LogProStart
               :: EInvokeStream (pro_request (snd (create_prompts (str "hi"))))
               :: hello_after_request) _ _).
  - vm_compute. reflexivity.
  - reflexivity.
Defined.

(** C1 fails on the code.  Under every schedule the deep-tier request is
    issued only after [future_micro.result()] has returned the fast
    result; for the query ["hi"], even when the worker that calls
    [stream_nova_pro] runs before the fast call starts, the request
    follows the fast result and the first pull. *)
Theorem deep_request_issued_after_fast_result
    (t : transport) (q : pystr) (schedule : list thread)
    (pre : list event) (r : request) (post : list event) :
  trace (chat t q schedule) = pre ++ EInvokeStream r :: post ->
  In (EAwaitMicro (invoke_nova_micro t (fst (create_prompts q)))) pre
  /\ trace (chat hello_transport (str "hi") (pro_first_schedule 4))
     = (hello_until_await_pro ++ [EPull; EPrint LogProStart])
       ++ EInvokeStream (pro_request (snd (create_prompts (str "hi"))))
       :: hello_after_request.
Proof.
  intros Htrace. split; [| exact hello_trace].
  apply awaits_fast_In.
  apply (guarded_split _ issues_deep_request pre (EInvokeStream r) post).
  - rewrite <- Htrace. apply fast_first.
    + cbn [fast_block existsb awaits_fast]. rewrite pystr_eqb_refl. reflexivity.
    + intros e' He'. destruct e'; try discriminate; reflexivity.
  - reflexivity.
  - reflexivity.
Qed.

Lemma deep_request_issued_after_fast_result_witness :
  In (EAwaitMicro (invoke_nova_micro hello_transport (fst (create_prompts (str "hi")))))
     (hello_until_await_pro ++ [EPull; EPrint LogProStart]).
Proof.
  refine (proj1 (deep_request_issued_after_fast_result hello_transport (str "hi")
            (pro_first_schedule 4)
            (hello_until_await_pro ++ [EPull; EPrint LogProStart])
            (pro_request (snd (create_prompts (str "hi"))))
            hello_after_request _)).
  vm_compute. reflexivity.
Defined.

Lemma is_pull_In (tr : list event) : existsb is_pull tr = true -> In EPull tr.
Proof.
  intros H. apply existsb_exists in H. destruct H as [e [Hin He]].
  destruct e; try discriminate. exact Hin.
Qed.

Section DeferredRequest.

Variable t : transport.

Local Ltac extend Hg :=
  apply guarded_app; [exact Hg | right];
  first [ apply guarded_led; reflexivity
        | apply guarded_quiet; reflexivity ].

Lemma pull_first_step (th : thread) (c c' : config) :
  guarded is_pull deep_io (trace c) = true ->
  step t th c = Some c' ->
  guarded is_pull deep_io (trace c') = true.
Proof.
  destruct c as [pt fm fp tr]. cbn [trace]. intros Hg Hstep.
  destruct th; cbn [step] in Hstep.
  - unfold step_main in Hstep.
    cbn [point future_micro future_pro_stream trace] in Hstep.
    destruct pt as [user_query|mp pp|pp| | |g acc|acc|e].
    + destruct (encodable user_query).
      * unfold create_prompts in Hstep. injection Hstep as <-. cbn [trace]. extend Hg.
      * injection Hstep as <-. cbn [trace]. exact Hg.
    + injection Hstep as <-. cbn [trace]. extend Hg.
    + injection Hstep as <-. cbn [trace]. extend Hg.
    + destruct fm as [|p|p|r]; try discriminate.
      destruct (encodable r); injection Hstep as <-; cbn [trace]; extend Hg.
    + destruct fp; try discriminate. injection Hstep as <-. cbn [trace]. extend Hg.
    + destruct (gen_next t g) as [effects [[[v g']|]|e]];
        [destruct v as [| | | |chunk| |]; [| | | |destruct (encodable chunk)| |] |..];
        injection Hstep as <-; cbn [trace]; extend Hg.
    + discriminate.
    + discriminate.
  - unfold step_micro in Hstep.
    cbn [point future_micro future_pro_stream trace] in Hstep.
    destruct fm as [|p|p|r]; try discriminate; injection Hstep as <-; cbn [trace].
    + extend Hg.
    + unfold micro_effects_return, micro_try.
      destruct (micro_completion t p) as [v|e]; [destruct (py_strip v) |]; extend Hg.
  - unfold step_pro in Hstep.
    cbn [point future_micro future_pro_stream trace] in Hstep.
    destruct fp as [|p|g]; try discriminate.
    cbn [stream_nova_pro] in Hstep. injection Hstep as <-. cbn [trace].
    rewrite app_nil_r. exact Hg.
Qed.

Lemma pull_first (q : pystr) (schedule : list thread) :
  guarded is_pull deep_io (trace (chat t q schedule)) = true.
Proof.
  apply (run_invariant t (fun c => guarded is_pull deep_io (trace c) = true)
           pull_first_step schedule (initial q)).
  reflexivity.
Qed.

End DeferredRequest.

(** C10: calling [stream_nova_pro] has no effect and returns a generator
    whose body has not been entered, so the worker that runs the call
    leaves the trace as it is; the request is issued by the first
    resumption of that generator; and under every schedule each request
    to the deep tier and each read of its stream comes after the main
    thread has begun to pull. *)
Theorem deep_request_deferred_until_first_pull
    (t : transport) (q : pystr) (schedule : list thread)
    (pre : list event) (e : event) (post : list event) :
  trace (chat t q schedule) = pre ++ e :: post ->
  deep_io e = true ->
  In EPull pre
  /\ (forall prompt, stream_nova_pro prompt = ([], GenCreated prompt))
  /\ (forall c c', step t ProWorker c = Some c' -> trace c' = trace c)
  /\ (forall prompt, exists effects,
        fst (gen_next t (GenCreated prompt))
        = EPrint LogProStart :: EInvokeStream (pro_request prompt) :: effects).
Proof.
  intros Htrace He. repeat split.
  - apply is_pull_In.
    apply (guarded_split is_pull deep_io pre e post).
    + rewrite <- Htrace. apply pull_first.
    + exact He.
    + destruct e; try discriminate; reflexivity.
  - intros c c' Hstep. cbn [step] in Hstep. unfold step_pro in Hstep.
    destruct (future_pro_stream c); try discriminate.
    cbn [stream_nova_pro] in Hstep. injection Hstep as <-. cbn [trace].
    apply app_nil_r.
  - intros prompt. cbn [gen_next]. unfold pro_try_start.
    destruct (invoke_model_with_response_stream t (pro_request prompt)) as [x|[s|]].
    + eexists. reflexivity.
    + destruct (run_loop (stream_events s) (stream_final s)) as [effects [r|x]];
        eexists; reflexivity.
    + eexists. reflexivity.
Qed.

Lemma deep_request_deferred_until_first_pull_witness :
  In EPull (hello_until_await_pro ++ [EPull; EPrint LogProStart]).
Proof.
  refine (proj1 (deep_request_deferred_until_first_pull hello_transport (str "hi")
            (pro_first_schedule 4)
            (hello_until_await_pro ++ [EPull; EPrint LogProStart])
            (EInvokeStream (pro_request (snd (create_prompts (str "hi")))))
            hello_after_request _ _)).
  - vm_compute. reflexivity.
  - reflexivity.
Defined.

(** * Further properties of the code *)

(** ** [create_prompts] *)

(** X1: the query can be read back from either prompt: two queries with
    the same fast prompt, or the same deep prompt, are the same query. *)
Theorem create_prompts_injective (q1 q2 : pystr) :
  fst (create_prompts q1) = fst (create_prompts q2)
  \/ snd (create_prompts q1) = snd (create_prompts q2) ->
  q1 = q2.
Proof.
  unfold create_prompts. cbn [fst snd].
  intros [H|H]; apply app_inv_head in H; apply app_inv_tail in H; exact H.
Qed.

Lemma create_prompts_injective_witness : str "hi" = str "hi".
Proof.
  refine (create_prompts_injective (str "hi") (str "hi") _).
  left. reflexivity.
Defined.

(** ** [invoke_nova_micro] *)

Lemma lstrip_clean_id (s : pystr) : starts_clean s -> lstrip s = s.
Proof.
  destruct s as [|c s]; cbn [starts_clean lstrip]; [reflexivity |].
  intros Hc. rewrite Hc. reflexivity.
Qed.

Lemma strip_trimmed_id (s : pystr) : trimmed s -> strip s = s.
Proof.
  intros [Hl Hr]. unfold strip, rstrip.
  rewrite (lstrip_clean_id s Hl), (lstrip_clean_id (rev s) Hr).
  apply rev_involutive.
Qed.

Lemma MICRO_FALLBACK_trimmed : trimmed MICRO_FALLBACK.
Proof. split; vm_compute; reflexivity. Qed.

(** X2: whatever the transport does, the string [invoke_nova_micro]
    returns has no whitespace at either end, so stripping it again
    changes nothing: it is the notice, or the stripped text of a
    completion that was a string. *)
Theorem invoke_nova_micro_always_trimmed (t : transport) (prompt : pystr) :
  trimmed (invoke_nova_micro t prompt)
  /\ strip (invoke_nova_micro t prompt) = invoke_nova_micro t prompt
  /\ (invoke_nova_micro t prompt = MICRO_FALLBACK
      \/ exists text, micro_completion t prompt = Ok (PStr text)
                      /\ invoke_nova_micro t prompt = strip text).
Proof.
  assert (Hcases : invoke_nova_micro t prompt = MICRO_FALLBACK
                   \/ exists text, micro_completion t prompt = Ok (PStr text)
                                   /\ invoke_nova_micro t prompt = strip text).
  { unfold invoke_nova_micro, micro_try.
    destruct (micro_completion t prompt) as [v|e]; [| left; reflexivity].
    destruct v; try (left; reflexivity).
    right. eexists. split; reflexivity. }
  assert (Htrim : trimmed (invoke_nova_micro t prompt)).
  { destruct Hcases as [H|[text [_ H]]]; rewrite H.
    - apply MICRO_FALLBACK_trimmed.
    - apply strip_trimmed. }
  split; [exact Htrim |]. split; [apply strip_trimmed_id, Htrim | exact Hcases].
Qed.

(** X3: when the completion that was extracted is not a string, the line
    that reports the elapsed time has already been printed; the error
    line follows it and the notice is returned.  The line that reports
    the elapsed time therefore does not tell that the call succeeded. *)
Theorem invoke_nova_micro_reports_before_strip
    (t : transport) (prompt : pystr) (completion : pyval) :
  micro_completion t prompt = Ok completion ->
  (forall s, completion <> PStr s) ->
  micro_effects_return t prompt
    = [EPrint LogMicroDone; EPrint (LogMicroError AttributeError)]
  /\ invoke_nova_micro t prompt = MICRO_FALLBACK.
Proof.
  intros Hc Hns. unfold micro_effects_return, invoke_nova_micro, micro_try.
  rewrite Hc. destruct completion; try (split; reflexivity).
  exfalso. apply (Hns s). reflexivity.
Qed.

Lemma invoke_nova_micro_reports_before_strip_witness :
  micro_effects_return
    (sample_transport
       (InvokeReturns (Some (ReadBytes (Ok (micro_envelope (PInt 5))))))
       (StreamInvokeReturns None))
    (str "p")
  = [EPrint LogMicroDone; EPrint (LogMicroError AttributeError)].
Proof.
  refine (proj1 (invoke_nova_micro_reports_before_strip _ (str "p") (PInt 5) _ _)).
  - vm_compute. reflexivity.
  - intros s. discriminate.
Defined.

(** X4: of the [content] list of the envelope only the first block is
    read: its text, stripped, is the result whatever blocks follow and
    whatever else the first block holds; with an empty [content] list
    the index fails and the notice is returned. *)
Theorem invoke_nova_micro_reads_first_block
    (t : transport) (prompt : pystr) (content : pyval) :
  invoke_model t (micro_request prompt)
    = InvokeReturns (Some (ReadBytes (Ok (envelope_with_content content)))) ->
  (forall first others text,
      content = PList (PDict first :: others) ->
      dict_get (str "text") first = Some (PStr text) ->
      invoke_nova_micro t prompt = strip text)
  /\ (content = PList [] ->
      invoke_nova_micro t prompt = MICRO_FALLBACK
      /\ micro_effects_return t prompt = [EPrint (LogMicroError IndexError)]).
Proof.
  intros Hreply.
  assert (Hc : micro_completion t prompt
               = (first <- py_getitem0 content ;; py_getitem (str "text") first)).
  { unfold micro_completion. rewrite Hreply. cbn [read_body bind].
    unfold extract_completion, envelope_with_content, py_getitem at 1 2 3.
    replace (dict_get (str "output") _)
      with (Some (PDict [(str "message", PDict [(str "content", content)])]))
      by (vm_compute; reflexivity).
    cbn [bind].
    replace (dict_get (str "message") _)
      with (Some (PDict [(str "content", content)])) by (vm_compute; reflexivity).
    cbn [bind].
    replace (dict_get (str "content") _) with (Some content) by (vm_compute; reflexivity).
    reflexivity. }
  split.
  - intros first others text -> Htext.
    unfold invoke_nova_micro, micro_try. rewrite Hc.
    cbn [py_getitem0 bind py_getitem]. rewrite Htext. reflexivity.
  - intros ->.
    unfold invoke_nova_micro, micro_effects_return, micro_try. rewrite Hc.
    split; reflexivity.
Qed.

Lemma invoke_nova_micro_reads_first_block_witness :
  invoke_nova_micro
    (sample_transport
       (InvokeReturns
          (Some (ReadBytes (Ok (envelope_with_content
             (PList [PDict [(str "text", json_text " one ")];
                     PDict [(str "text", json_text "two")]]))))))
       (StreamInvokeReturns None))
    (str "p")
  = strip (str " one ").
Proof.
  refine (proj1 (invoke_nova_micro_reads_first_block _ (str "p") _ _)
            [(str "text", json_text " one ")]
            [PDict [(str "text", json_text "two")]] (str " one ") _ _).
  - reflexivity.
  - reflexivity.
  - vm_compute. reflexivity.
Defined.

(** ** [stream_nova_pro] *)

Lemma delta_texts_length (events : list stream_event) :
  (List.length (delta_texts events) <= List.length events)%nat.
Proof.
  induction events as [|ev rest IH]; [apply le_n |].
  cbn [delta_texts flat_map]. rewrite length_app.
  fold (delta_texts rest). cbn [List.length].
  destruct (delta_text ev); cbn [List.length]; lia.
Qed.




(** X6: a chunk whose JSON is not an object is not simply skipped.  A
    number, a boolean or null makes the [in] test raise; a string or a
    list is passed over when it does not contain the key, and makes the
    subscript that follows raise when it does.  In each raising case the
    stream ends there with the notice. *)
Theorem handle_event_non_object (v : pyval) :
  (forall kv, v <> PDict kv) ->
  handle_event (Chunk (Decoded v))
  = match v with
    | PStr s =>
        if str_contains (str "contentBlockDelta") s then Raise TypeError else Ok None
    | PList l =>
        if existsb (is_str_eq (str "contentBlockDelta")) l
        then Raise TypeError else Ok None
    | _ => Raise TypeError
    end.
Proof.
  intros Hv. cbn [handle_event decode_chunk bind].
  destruct v as [| | | |s|l|kv]; cbn [py_in bind py_getitem]; try reflexivity.
  exfalso. apply (Hv kv). reflexivity.
Qed.

Lemma handle_event_non_object_witness :
  handle_event (Chunk (Decoded (json_text "see contentBlockDelta")))
  = (if str_contains (str "contentBlockDelta") (str "see contentBlockDelta")
     then Raise TypeError else Ok None).
Proof.
  refine (handle_event_non_object (json_text "see contentBlockDelta") _).
  intros kv. discriminate.
Defined.

(** ** A whole turn of [chat] *)

Lemma pro_except_cons (e : event) (body : list event * result resumption) :
  pro_except (e :: fst body, snd body)
  = (e :: fst (pro_except body), snd (pro_except body)).
Proof. destruct body as [effects [r|x]]; reflexivity. Qed.

Lemma run_loop_skip (ev : stream_event) (rest : list stream_event) (fin : stream_end) :
  handle_event ev = Ok None ->
  run_loop (ev :: rest) fin
  = (EStreamRead :: fst (run_loop rest fin), snd (run_loop rest fin)).
Proof.
  intros H. cbn [run_loop]. rewrite H. destruct (run_loop rest fin). reflexivity.
Qed.

Lemma PRO_FALLBACK_encodable : encodable PRO_FALLBACK = true.
Proof. vm_compute. reflexivity. Qed.

Lemma loop_turn_cons (t : transport) (e : event) (body : list event * result resumption) :
  loop_turn t (e :: fst body, snd body) = e :: loop_turn t body.
Proof.
  unfold loop_turn. cbn [fst snd].
  destruct (snd body) as [[[v g']|]|x]; try reflexivity.
  destruct v as [| | | |chunk| |]; try reflexivity.
  destruct (encodable chunk); reflexivity.
Qed.

Lemma loop_turn_notice (t : transport) (effects : list event) :
  loop_turn t (effects, Ok (Some (PStr PRO_FALLBACK, GenInHandler)))
  = effects ++ notice_output.
Proof.
  unfold loop_turn. cbn [fst snd]. rewrite PRO_FALLBACK_encodable. reflexivity.
Qed.

Lemma stream_output_turn (t : transport) (events : list stream_event) (fin : stream_end) :
  stream_output events fin = loop_turn t (pro_except (run_loop events fin)).
Proof.
  induction events as [|ev rest IH].
  - destruct fin; reflexivity.
  - cbn [stream_output]. destruct (handle_event ev) as [[v|]|e] eqn:Hev.
    + cbn [run_loop]. rewrite Hev.
      destruct v as [| | | |chunk| |]; try reflexivity.
      unfold pro_except, loop_turn. cbn [fst snd app gen_output].
      destruct (encodable chunk); reflexivity.
    + rewrite (run_loop_skip ev rest fin Hev), pro_except_cons, IH.
      rewrite <- loop_turn_cons. destruct (pro_except (run_loop rest fin)); reflexivity.
    + cbn [run_loop]. rewrite Hev. reflexivity.
Qed.

Lemma gen_output_turn (t : transport) (g : generator) :
  gen_output t g = loop_turn t (gen_next t g).
Proof.
  destruct g as [prompt|rest fin| |]; cbn [gen_output gen_next]; try reflexivity.
  - unfold pro_try_start.
    destruct (invoke_model_with_response_stream t (pro_request prompt)) as [e|[s|]];
      try reflexivity.
    rewrite (stream_output_turn t).
    destruct (run_loop (stream_events s) (stream_final s)) as [effects r].
    change ([EPrint LogProStart; EInvokeStream (pro_request prompt)] ++ effects, r)
      with (EPrint LogProStart
              :: fst (EInvokeStream (pro_request prompt) :: fst (effects, r), snd (effects, r)),
            snd (EInvokeStream (pro_request prompt) :: fst (effects, r), snd (effects, r))).
    rewrite pro_except_cons, loop_turn_cons.
    rewrite pro_except_cons, loop_turn_cons. reflexivity.
  - apply stream_output_turn.
Qed.

Lemma loop_chunks_turn (t : transport) (events : list stream_event) (fin : stream_end) :
  loop_chunks events fin
  = match snd (pro_except (run_loop events fin)) with
    | Ok (Some (v, g')) => v :: gen_chunks t g'
    | _ => []
    end.
Proof.
  induction events as [|ev rest IH].
  - destruct fin; reflexivity.
  - cbn [loop_chunks]. destruct (handle_event ev) as [[v|]|e] eqn:Hev.
    + cbn [run_loop]. rewrite Hev. reflexivity.
    + rewrite IH, !snd_pro_except, (snd_run_loop_skip ev rest fin Hev). reflexivity.
    + cbn [run_loop]. rewrite Hev. reflexivity.
Qed.

Lemma gen_chunks_turn (t : transport) (g : generator) :
  gen_chunks t g
  = match snd (gen_next t g) with
    | Ok (Some (v, g')) => v :: gen_chunks t g'
    | _ => []
    end.
Proof.
  destruct g as [prompt|rest fin| |]; cbn [gen_chunks gen_next]; try reflexivity.
  - destruct (invoke_model_with_response_stream t (pro_request prompt))
      as [e|[s|]] eqn:Hreply; cbn [reply_chunks].
    + unfold pro_try_start. rewrite Hreply. reflexivity.
    + rewrite (loop_chunks_turn t), !snd_pro_except.
      rewrite (snd_pro_try_start_stream t prompt s Hreply). reflexivity.
    + unfold pro_try_start. rewrite Hreply. reflexivity.
  - apply loop_chunks_turn.
Qed.

Lemma filter_all {A} (f : A -> bool) (l : list A) :
  forallb f l = true -> filter f l = l.
Proof.
  induction l as [|x l IH]; cbn [forallb filter]; [reflexivity |].
  intros H. apply andb_prop in H. destruct H as [Hx Hl].
  rewrite Hx, (IH Hl). reflexivity.
Qed.

Lemma run_loop_visible (events : list stream_event) (fin : stream_end) :
  forallb (fun e => negb (ghost e)) (fst (run_loop events fin)) = true.
Proof.
  induction events as [|ev rest IH].
  - destruct fin; reflexivity.
  - cbn [run_loop]. destruct (handle_event ev) as [[v|]|e]; try reflexivity.
    destruct (run_loop rest fin) as [effects r]. exact IH.
Qed.

Lemma pro_except_visible (body : list event * result resumption) :
  forallb (fun e => negb (ghost e)) (fst body) = true ->
  forallb (fun e => negb (ghost e)) (fst (pro_except body)) = true.
Proof.
  destruct body as [effects [r|x]]; cbn [pro_except fst]; intros H; [exact H |].
  rewrite forallb_app, H. reflexivity.
Qed.

Lemma gen_next_visible (t : transport) (g : generator) :
  visible_output (fst (gen_next t g)) = fst (gen_next t g).
Proof.
  apply filter_all.
  destruct g as [prompt|rest fin| |]; cbn [gen_next]; try reflexivity.
  - apply pro_except_visible. unfold pro_try_start.
    destruct (invoke_model_with_response_stream t (pro_request prompt)) as [e|[s|]];
      try reflexivity.
    pose proof (run_loop_visible (stream_events s) (stream_final s)) as H.
    destruct (run_loop (stream_events s) (stream_final s)) as [effects r].
    exact H.
  - apply pro_except_visible, run_loop_visible.
Qed.

Lemma micro_return_visible (t : transport) (prompt : pystr) :
  visible_output (micro_effects_return t prompt) = micro_effects_return t prompt.
Proof.
  unfold micro_effects_return, micro_try.
  destruct (micro_completion t prompt) as [v|e]; [| reflexivity].
  destruct (py_strip v); reflexivity.
Qed.

Lemma visible_output_app (l1 l2 : list event) :
  visible_output (l1 ++ l2) = visible_output l1 ++ visible_output l2.
Proof. apply filter_app. Qed.

(** Each step keeps the invariant of the turn. *)
Lemma turn_step (t : transport) (q : pystr) (th : thread) (c c' : config) :
  turn_inv t q c -> step t th c = Some c' -> turn_inv t q c'.
Proof.
  intros [Hco [Hout Hend]] Hstep.
  enough (H : coherent c'
              /\ visible_output (trace c') ++ pending_output t c'
                 = visible_output (trace c) ++ pending_output t c
              /\ pending_outcome t c' = pending_outcome t c).
  { destruct H as [H1 [H2 H3]]. repeat split; [exact H1 | |]; congruence. }
  clear Hout Hend. destruct c as [pt fm fp tr].
  unfold coherent, pending_output, pending_outcome in *.
  cbn [point future_micro future_pro_stream trace] in *.
  destruct th; cbn [step] in Hstep.
  - unfold step_main in Hstep.
    cbn [point future_micro future_pro_stream trace] in Hstep.
    destruct pt as [user_query|mp pp|pp| | |g acc|acc|e].
    + destruct (create_prompts user_query) as [mp pp]. cbn [fst snd].
      destruct (encodable user_query);
        injection Hstep as <-; cbn [point future_micro future_pro_stream trace].
      * rewrite visible_output_app.
        repeat split; [exact Hco |].
        rewrite <- app_assoc. reflexivity.
      * repeat split. left. exact Hco.
    + injection Hstep as <-. cbn [point future_micro future_pro_stream trace].
      rewrite visible_output_app. cbn [micro_pending micro_result].
      repeat split; [discriminate |].
      cbn [visible_output filter ghost negb]. rewrite app_nil_r, <- !app_assoc.
      reflexivity.
    + injection Hstep as <-. cbn [point future_micro future_pro_stream trace].
      rewrite visible_output_app. cbn [generator_of].
      repeat split; [exact Hco | discriminate |].
      cbn [visible_output filter ghost negb]. rewrite app_nil_r. reflexivity.
    + destruct fm as [|p|p|r]; try discriminate.
      cbn [micro_pending micro_result app]. unfold after_fast, outcome_after_fast.
      destruct Hco as [_ Hfp].
      destruct (encodable r);
        injection Hstep as <-; cbn [point future_micro future_pro_stream trace];
        rewrite visible_output_app.
      * repeat split; [eexists; reflexivity | exact Hfp |].
        rewrite <- app_assoc. reflexivity.
      * repeat split; [right; eexists; reflexivity |].
        cbn [visible_output filter ghost negb fast_block app].
        rewrite app_nil_r. reflexivity.
    + destruct fp as [|p|g]; try discriminate.
      injection Hstep as <-. cbn [point future_micro future_pro_stream trace].
      rewrite visible_output_app. cbn [generator_of].
      destruct Hco as [Hfm _].
      repeat split; [exact Hfm |].
      cbn [visible_output filter ghost negb]. rewrite app_nil_r. reflexivity.
    + rewrite (gen_output_turn t g), (gen_chunks_turn t g).
      pose proof (gen_next_visible t g) as Hvis.
      destruct (gen_next_never_raises t g) as [r0 Hr0].
      unfold loop_turn.
      destruct (gen_next t g) as [effects r]. cbn [fst snd] in *. subst r.
      destruct r0 as [[v g']|].
      * cbn [loop_outcome].
        destruct v as [| | | |chunk| |]; [| | | |destruct (encodable chunk)| |];
          injection Hstep as <-;
          cbn [point future_micro future_pro_stream trace];
          rewrite visible_output_app;
          (split; [try (right; exact Hco); exact Hco |]);
          change (visible_output (EPull :: ?l)) with (visible_output l);
          try (rewrite Hvis, app_nil_r; split; reflexivity).
        rewrite visible_output_app, Hvis. split.
        -- cbn [visible_output filter ghost negb]. rewrite <- !app_assoc. reflexivity.
        -- reflexivity.
      * injection Hstep as <-. cbn [point future_micro future_pro_stream trace].
        rewrite visible_output_app.
        change (visible_output (EPull :: ?l)) with (visible_output l).
        rewrite visible_output_app, Hvis.
        split; [exact Hco |]. split.
        -- cbn [visible_output filter ghost negb]. rewrite app_nil_r. reflexivity.
        -- reflexivity.
    + discriminate.
    + discriminate.
  - unfold step_micro in Hstep.
    cbn [point future_micro future_pro_stream trace] in Hstep.
    destruct fm as [|p|p|r]; try discriminate; injection Hstep as <-;
      cbn [point future_micro future_pro_stream trace];
      rewrite visible_output_app;
      destruct pt as [user_query|mp pp|pp| | |g acc|acc|e];
      try discriminate;
      try (destruct Hco as [r Hr]; discriminate);
      try (destruct Hco as [[r Hr] _]; discriminate);
      try (destruct Hco as [Hco|[r Hr]]; discriminate);
      cbn [micro_pending micro_result app];
      rewrite ?micro_return_visible.
    + repeat split; [discriminate |].
      change (visible_output (micro_effects_call p)) with (micro_effects_call p).
      rewrite <- !app_assoc. reflexivity.
    + destruct Hco as [_ Hfp]. repeat split; [discriminate | exact Hfp |].
      change (visible_output (micro_effects_call p)) with (micro_effects_call p).
      rewrite <- !app_assoc. reflexivity.
    + repeat split; [discriminate |]. rewrite <- !app_assoc. reflexivity.
    + destruct Hco as [_ Hfp]. repeat split; [discriminate | exact Hfp |].
      rewrite <- !app_assoc. reflexivity.
  - unfold step_pro in Hstep.
    cbn [point future_micro future_pro_stream trace] in Hstep.
    destruct fp as [|p|g]; try discriminate.
    cbn [stream_nova_pro] in Hstep. injection Hstep as <-.
    cbn [point future_micro future_pro_stream trace].
    rewrite app_nil_r. cbn [generator_of].
    destruct pt; repeat split; try tauto; try discriminate.
Qed.

Lemma turn_invariant (t : transport) (q : pystr) (schedule : list thread) :
  turn_inv t q (chat t q schedule).
Proof.
  apply (run_invariant t (turn_inv t q) (turn_step t q) schedule (initial q)).
  repeat split.
Qed.

Lemma final_pending (t : transport) (c : config) :
  is_final (point c) = true ->
  pending_output t c = [] /\ pending_outcome t c = point c.
Proof.
  unfold pending_output, pending_outcome.
  destruct (point c); try discriminate; intros _; split; reflexivity.
Qed.

Lemma final_output (t : transport) (q : pystr) (schedule : list thread) :
  is_final (point (chat t q schedule)) = true ->
  visible_output (trace (chat t q schedule)) = pending_output t (initial q)
  /\ point (chat t q schedule) = pending_outcome t (initial q).
Proof.
  intros Hfin. destruct (turn_invariant t q schedule) as [_ [Hout Hend]].
  destruct (final_pending t _ Hfin) as [Hp Hq].
  rewrite Hp, app_nil_r in Hout. rewrite Hq in Hend. split; assumption.
Qed.

(** X7: the output of a turn does not depend on how the threads are
    scheduled: two runs of [chat] on the same query that are over have
    printed, requested, read and written the same things in the same
    order and ended the same way, and what a run has shown at any moment
    is an initial part of that output. *)
Theorem chat_output_schedule_independent
    (t : transport) (q : pystr) (s1 s2 : list thread) :
  is_final (point (chat t q s2)) = true ->
  (exists rest,
      visible_output (trace (chat t q s2))
      = visible_output (trace (chat t q s1)) ++ rest)
  /\ (is_final (point (chat t q s1)) = true ->
      visible_output (trace (chat t q s1)) = visible_output (trace (chat t q s2))
      /\ point (chat t q s1) = point (chat t q s2)).
Proof.
  intros Hfin2. destruct (final_output t q s2 Hfin2) as [Hout2 Hend2].
  split.
  - exists (pending_output t (chat t q s1)).
    destruct (turn_invariant t q s1) as [_ [Hout1 _]]. congruence.
  - intros Hfin1. destruct (final_output t q s1 Hfin1) as [Hout1 Hend1].
    split; congruence.
Qed.

Lemma chat_output_schedule_independent_witness :
  visible_output (trace (chat hello_transport (str "hi") (eager_schedule 4)))
  = visible_output (trace (chat hello_transport (str "hi") (pro_first_schedule 4)))
  /\ point (chat hello_transport (str "hi") (eager_schedule 4))
     = point (chat hello_transport (str "hi") (pro_first_schedule 4)).
Proof.
  refine (proj2 (chat_output_schedule_independent hello_transport (str "hi")
                   (eager_schedule 4) (pro_first_schedule 4) _) _);
    vm_compute; reflexivity.
Defined.







Lemma loop_outcome_crashed (chunks : list pyval) :
  forall (acc : pystr) (e : exn),
    loop_outcome acc chunks = Crashed e -> e = TypeError \/ e = UnicodeEncodeError.
Proof.
  induction chunks as [|v rest IH]; intros acc e; cbn [loop_outcome]; [discriminate |].
  destruct v as [| | | |chunk| |];
    try (intros H; injection H as <-; left; reflexivity).
  destruct (encodable chunk); [apply IH |].
  intros H. injection H as <-. right. reflexivity.
Qed.



Lemma run_main_final (t : transport) (n : nat) (c : config) :
  is_final (point c) = true -> run t (repeat MainThread n) c = c.
Proof.
  intros Hc. induction n as [|n IH]; [reflexivity |].
  cbn [repeat run step]. unfold step_main.
  destruct (point c); try discriminate; exact IH.
Qed.

Lemma run_pulls_final (t : transport) (n : nat) :
  forall (g : generator) (acc : pystr) (fm : micro_future) (fp : pro_future)
         (tr : list event) (chunks : list pyval),
    drain t n g = Finished chunks ->
    is_final (point (run t (repeat MainThread n)
                       {| point := AtLoop g acc; future_micro := fm;
                          future_pro_stream := fp; trace := tr |})) = true.
Proof.
  induction n as [|n IH]; intros g acc fm fp tr chunks Hdrain.
  - discriminate.
  - cbn [drain] in Hdrain. cbn [repeat run step]. unfold step_main.
    cbn [point future_micro future_pro_stream trace].
    destruct (gen_next t g) as [effects [[[v g']|]|e]]; cbn [snd] in Hdrain.
    + apply drained_cons_finished in Hdrain. destruct Hdrain as [rest [Hrest _]].
      destruct v as [| | | |chunk| |]; try (rewrite run_main_final; reflexivity).
      destruct (encodable chunk); [| rewrite run_main_final; reflexivity].
      exact (IH g' _ fm fp _ rest Hrest).
    + rewrite run_main_final; reflexivity.
    + discriminate.
Qed.

Lemma step_final (t : transport) (th : thread) (c c' : config) :
  is_final (point c) = true -> step t th c = Some c' -> is_final (point c') = true.
Proof.
  intros Hc. destruct th; cbn [step].
  - unfold step_main. destruct (point c); discriminate.
  - unfold step_micro. destruct (future_micro c); try discriminate;
      intros H; injection H as <-; exact Hc.
  - unfold step_pro. destruct (future_pro_stream c); try discriminate.
    cbn [stream_nova_pro]. intros H. injection H as <-. exact Hc.
Qed.

Lemma run_final (t : transport) (schedule : list thread) :
  forall c, is_final (point c) = true -> is_final (point (run t schedule c)) = true.
Proof.
  induction schedule as [|th schedule IH]; intros c Hc; [exact Hc |].
  cbn [run]. destruct (step t th c) as [c'|] eqn:Hstep.
  - apply IH. exact (step_final t th c c' Hc Hstep).
  - apply IH. exact Hc.
Qed.

Lemma run_final_from_start (t : transport) (q : pystr) (n : nat) :
  encodable q = false ->
  is_final (point (run t (eager_schedule n) (initial q))) = true.
Proof.
  intros Hq. unfold eager_schedule, initial. cbn [app].
  change (run t (MainThread :: ?l) ?c)
    with (match step t MainThread c with
          | Some c' => run t l c'
          | None => run t l c
          end).
  cbn [step]. unfold step_main.
  cbn [point future_micro future_pro_stream trace]. rewrite Hq.
  destruct (create_prompts q). apply run_final. reflexivity.
Qed.

(** X9: every turn can be brought to its end: when each worker runs as
    soon as its call is submitted, [chat] is over after at most as many
    pulls as the stream has events, plus two. *)
Theorem chat_turn_completes (t : transport) (q : pystr) (n : nat) :
  (enough_fuel (invoke_model_with_response_stream t
                  (pro_request (snd (create_prompts q)))) <= n)%nat ->
  is_final (point (chat t q (eager_schedule n))) = true.
Proof.
  intros Hfuel.
  destruct (encodable q) eqn:Hq.
  - destruct (encodable (invoke_nova_micro t (fst (create_prompts q)))) eqn:Hfast.
    + assert (Hsplit : chat t q (eager_schedule n)
                       = run t (repeat MainThread n) (chat t q (eager_schedule 0))).
      { unfold chat, eager_schedule. rewrite run_app. cbn [repeat].
        rewrite app_nil_r. reflexivity. }
      rewrite Hsplit, (chat_eager_prefix t q Hq Hfast).
      eapply run_pulls_final. apply drain_created. exact Hfuel.
    + unfold chat, eager_schedule, initial. cbn [app].
      change (run t (MainThread :: ?l) ?c)
        with (match step t MainThread c with
              | Some c' => run t l c'
              | None => run t l c
              end).
      cbn [step]. rewrite (step_main_start t q _ _ _ Hq).
      change (MainThread :: MicroWorker :: MicroWorker :: MainThread
                :: ProWorker :: MainThread :: ?l)
        with ([MainThread; MicroWorker; MicroWorker; MainThread;
               ProWorker; MainThread] ++ l).
      rewrite run_app. apply run_final.
      cbn [run step step_main step_micro step_pro stream_nova_pro
           point future_micro future_pro_stream trace].
      rewrite Hfast. reflexivity.
  - unfold chat. apply run_final_from_start. exact Hq.
Qed.

Lemma chat_turn_completes_witness :
  is_final (point (chat hello_transport (str "hi") (eager_schedule 7))) = true.
Proof.
  refine (chat_turn_completes hello_transport (str "hi") 7 _).
  vm_compute. lia.
Defined.

Lemma requests_app (l1 l2 : list event) :
  requests (l1 ++ l2) = requests l1 ++ requests l2.
Proof. apply filter_app. Qed.

Lemma requests_visible (tr : list event) :
  requests (visible_output tr) = requests tr.
Proof.
  induction tr as [|e tr IH]; [reflexivity |].
  destruct e; cbn [visible_output filter ghost negb requests is_request];
    fold (visible_output tr); fold (requests tr);
    fold (requests (visible_output tr)); rewrite ?IH; reflexivity.
Qed.

Lemma requests_stream_output (events : list stream_event) (fin : stream_end) :
  requests (stream_output events fin) = [].
Proof.
  induction events as [|ev rest IH].
  - destruct fin; reflexivity.
  - cbn [stream_output requests filter is_request].
    destruct (handle_event ev) as [[v|]|e]; try reflexivity.
    + destruct v as [| | | |chunk| |]; try reflexivity.
      destruct (encodable chunk); [exact IH | reflexivity].
    + exact IH.
Qed.

Lemma requests_micro_return (t : transport) (prompt : pystr) :
  requests (micro_effects_return t prompt) = [].
Proof.
  unfold micro_effects_return, micro_try.
  destruct (micro_completion t prompt) as [v|e]; [| reflexivity].
  destruct (py_strip v); reflexivity.
Qed.

Lemma requests_gen_output (t : transport) (prompt : pystr) :
  requests (gen_output t (GenCreated prompt)) = [EInvokeStream (pro_request prompt)].
Proof.
  cbn [gen_output]. rewrite requests_app.
  replace (requests
             match invoke_model_with_response_stream t (pro_request prompt) with
             | StreamInvokeRaises e => EPrint (LogProError e) :: notice_output
             | StreamInvokeReturns (Some s) =>
                 stream_output (stream_events s) (stream_final s)
             | StreamInvokeReturns None => [EPrint LogDone; EPrint LogRule]
             end) with (@nil event).
  - reflexivity.
  - destruct (invoke_model_with_response_stream t (pro_request prompt))
      as [e|[s|]]; try reflexivity.
    symmetry. apply requests_stream_output.
Qed.

Lemma requests_turn (t : transport) (q : pystr) :
  requests (pending_output t (initial q))
  = (if encodable q then
       EInvokeModel (micro_request (fst (create_prompts q)))
       :: (if encodable (invoke_nova_micro t (fst (create_prompts q)))
           then [EInvokeStream (pro_request (snd (create_prompts q)))]
           else [])
     else []).
Proof.
  unfold pending_output, after_fast. cbn [point initial].
  destruct (encodable q); [| reflexivity].
  rewrite !requests_app, requests_micro_return.
  destruct (encodable (invoke_nova_micro t (fst (create_prompts q)))); [| reflexivity].
  rewrite requests_app, requests_gen_output. reflexivity.
Qed.

(** X10: under every schedule [chat] makes at most one call to each
    operation of the client, the fast one first, each with the prompt
    [create_prompts] built for it, also when a call fails: the code of
    [chat] has no second attempt of its own (what the client does inside
    one call, where it is configured with [max_attempts] 3, is not part
    of the trace).  A turn that is over has made both calls when the
    query and the fast answer could be printed; when [print] raised for
    the fast answer, only the fast call, since the generator was never
    started; and none when [print] raised for the query. *)
Theorem chat_requests_once (t : transport) (q : pystr) (schedule : list thread) :
  (exists rest,
      requests (trace (chat t q schedule)) ++ rest
      = [EInvokeModel (micro_request (fst (create_prompts q)));
         EInvokeStream (pro_request (snd (create_prompts q)))])
  /\ (is_final (point (chat t q schedule)) = true ->
      requests (trace (chat t q schedule))
      = (if encodable q then
           EInvokeModel (micro_request (fst (create_prompts q)))
           :: (if encodable (invoke_nova_micro t (fst (create_prompts q)))
               then [EInvokeStream (pro_request (snd (create_prompts q)))]
               else [])
         else [])).
Proof.
  destruct (turn_invariant t q schedule) as [_ [Hout _]].
  apply (f_equal requests) in Hout.
  rewrite requests_app, requests_visible, requests_turn in Hout.
  split.
  - destruct (encodable q);
      [destruct (encodable (invoke_nova_micro t (fst (create_prompts q)))) |].
    + eexists. exact Hout.
    + exists (requests (pending_output t (chat t q schedule))
              ++ [EInvokeStream (pro_request (snd (create_prompts q)))]).
      rewrite app_assoc, Hout. reflexivity.
    + exists (requests (pending_output t (chat t q schedule))
              ++ [EInvokeModel (micro_request (fst (create_prompts q)));
                  EInvokeStream (pro_request (snd (create_prompts q)))]).
      rewrite app_assoc, Hout. reflexivity.
  - intros Hfin. destruct (final_pending t _ Hfin) as [Hp _].
    rewrite Hp, app_nil_r in Hout. exact Hout.
Qed.

Lemma chat_requests_once_witness :
  requests (trace (chat (sample_transport (InvokeRaises TransportError)
                                          (StreamInvokeRaises TransportError))
                        (str "hi") (eager_schedule 2)))
  = [EInvokeModel (micro_request (fst (create_prompts (str "hi"))));
     EInvokeStream (pro_request (snd (create_prompts (str "hi"))))]
  /\ requests (trace (chat hello_transport [55357] (eager_schedule 2))) = [].
Proof.
  split.
  - refine (proj2 (chat_requests_once _ (str "hi") (eager_schedule 2)) _).
    vm_compute. reflexivity.
  - refine (proj2 (chat_requests_once hello_transport [55357] (eager_schedule 2)) _).
    vm_compute. reflexivity.
Defined.

(** X11: a turn never blocks for good.  In every configuration a run of
    [chat] reaches that is not its end, some thread can move: the main
    thread wherever it is not waiting, and where it waits for a result
    that is not there yet, the worker that is to produce it. *)
Theorem chat_never_stuck (t : transport) (q : pystr) (schedule : list thread) :
  is_final (point (chat t q schedule)) = false ->
  exists th c', step t th (chat t q schedule) = Some c'
                /\ (th = MainThread
                    \/ (th = MicroWorker /\ point (chat t q schedule) = AtAwaitMicro)
                    \/ (th = ProWorker /\ point (chat t q schedule) = AtAwaitPro)).
Proof.
  destruct (turn_invariant t q schedule) as [Hco _].
  destruct (chat t q schedule) as [pt fm fp tr].
  unfold coherent in Hco. cbn [point future_micro future_pro_stream] in *.
  intros Hfin.
  destruct pt as [user_query|mp pp|pp| | |g acc|acc|e]; try discriminate.
  - exists MainThread. cbn [step]. unfold step_main. cbn [point].
    destruct (create_prompts user_query) as [mp pp].
    destruct (encodable user_query); eexists; (split; [reflexivity | left; reflexivity]).
  - exists MainThread. eexists. split; [reflexivity | left; reflexivity].
  - exists MainThread. eexists. split; [reflexivity | left; reflexivity].
  - destruct Hco as [Hfm _]. destruct fm as [|p|p|r]; [contradiction | | |].
    + exists MicroWorker. eexists. split; [reflexivity | right; left; split; reflexivity].
    + exists MicroWorker. eexists. split; [reflexivity | right; left; split; reflexivity].
    + exists MainThread. cbn [step]. unfold step_main.
      cbn [point future_micro future_pro_stream trace].
      destruct (encodable r); eexists; (split; [reflexivity | left; reflexivity]).
  - destruct Hco as [_ Hfp]. destruct fp as [|p|g]; [contradiction | |].
    + exists ProWorker. eexists. split; [reflexivity | right; right; split; reflexivity].
    + exists MainThread. eexists. split; [reflexivity | left; reflexivity].
  - exists MainThread. cbn [step]. unfold step_main.
    cbn [point future_micro future_pro_stream trace].
    destruct (gen_next t g) as [effects [[[v g']|]|e]].
    + destruct v as [| | | |chunk| |]; [| | | |destruct (encodable chunk)| |];
        eexists; (split; [reflexivity | left; reflexivity]).
    + eexists. split; [reflexivity | left; reflexivity].
    + eexists. split; [reflexivity | left; reflexivity].
Qed.

Lemma chat_never_stuck_witness :
  exists th c',
    step hello_transport th
      (chat hello_transport (str "hi") [MainThread; MainThread; MainThread]) = Some c'
    /\ (th = MainThread
        \/ (th = MicroWorker
            /\ point (chat hello_transport (str "hi")
                        [MainThread; MainThread; MainThread]) = AtAwaitMicro)
        \/ (th = ProWorker
            /\ point (chat hello_transport (str "hi")
                        [MainThread; MainThread; MainThread]) = AtAwaitPro)).
Proof.
  refine (chat_never_stuck hello_transport (str "hi")
            [MainThread; MainThread; MainThread] _).
  vm_compute. reflexivity.
Defined.

Lemma is_submit_micro_In (tr : list event) :
  existsb is_submit_micro tr = true -> In ESubmitMicro tr.
Proof.
  intros H. apply existsb_exists in H. destruct H as [e [Hin He]].
  destruct e; try discriminate. exact Hin.
Qed.

Lemma is_submit_pro_In (tr : list event) :
  existsb is_submit_pro tr = true -> In ESubmitPro tr.
Proof.
  intros H. apply existsb_exists in H. destruct H as [e [Hin He]].
  destruct e; try discriminate. exact Hin.
Qed.

Lemma submit_step (t : transport) (th : thread) (c c' : config) :
  submit_inv c -> step t th c = Some c' -> submit_inv c'.
Proof.
  destruct c as [pt fm fp tr]. unfold submit_inv.
  cbn [point future_micro future_pro_stream trace].
  intros [G1 [G2 [E1 E2]]] Hstep.
  assert (Hext : forall block pt',
             (micro_submitted pt = true \/ block = [ESubmitMicro]
              \/ (micro_submitted pt' = false
                  /\ guarded is_submit_micro (fun e => is_submit_pro e || is_await e) block
                     = true)) ->
             (pro_submitted pt = true \/ block = [ESubmitPro]
              \/ (pro_submitted pt' = false /\ guarded is_submit_pro is_await block = true)) ->
             guarded is_submit_micro (fun e => is_submit_pro e || is_await e) (tr ++ block)
             = true
             /\ guarded is_submit_pro is_await (tr ++ block) = true
             /\ (micro_submitted pt' = true -> existsb is_submit_micro (tr ++ block) = true)
             /\ (pro_submitted pt' = true -> existsb is_submit_pro (tr ++ block) = true)).
  { intros block pt' H1 H2. repeat split.
    - apply guarded_app; [exact G1 |].
      destruct H1 as [H|[->|[_ H]]]; [left; exact (E1 H) | right; reflexivity | right; exact H].
    - apply guarded_app; [exact G2 |].
      destruct H2 as [H|[->|[_ H]]]; [left; exact (E2 H) | right; reflexivity | right; exact H].
    - intros Hp. destruct H1 as [H|[->|[H _]]].
      + apply existsb_app_l, E1, H.
      + apply existsb_app_r. reflexivity.
      + congruence.
    - intros Hp. destruct H2 as [H|[->|[H _]]].
      + apply existsb_app_l, E2, H.
      + apply existsb_app_r. reflexivity.
      + congruence. }
  destruct th; cbn [step] in Hstep.
  - unfold step_main in Hstep.
    cbn [point future_micro future_pro_stream trace] in Hstep.
    destruct pt as [user_query|mp pp|pp| | |g acc|acc|e].
    + destruct (create_prompts user_query) as [mp pp].
      destruct (encodable user_query); injection Hstep as <-; cbn [point trace].
      * apply Hext; right; right; split; reflexivity.
      * rewrite <- (app_nil_r tr). apply Hext; right; right; split; reflexivity.
    + injection Hstep as <-. cbn [point trace].
      apply Hext; [right; left; reflexivity | right; right; split; reflexivity].
    + injection Hstep as <-. cbn [point trace].
      apply Hext; [left; reflexivity | right; left; reflexivity].
    + destruct fm as [|p|p|r]; try discriminate.
      destruct (encodable r); injection Hstep as <-; cbn [point trace];
        apply Hext; left; reflexivity.
    + destruct fp; try discriminate. injection Hstep as <-. cbn [point trace].
      apply Hext; left; reflexivity.
    + destruct (gen_next t g) as [effects [[[v g']|]|e]];
        [destruct v as [| | | |chunk| |]; [| | | |destruct (encodable chunk)| |] |..];
        injection Hstep as <-; cbn [point trace];
        apply Hext; left; reflexivity.
    + discriminate.
    + discriminate.
  - unfold step_micro in Hstep.
    cbn [point future_micro future_pro_stream trace] in Hstep.
    assert (Hquiet : forall block,
               guarded is_submit_micro (fun e => is_submit_pro e || is_await e) block = true ->
               guarded is_submit_pro is_await block = true ->
               guarded is_submit_micro (fun e => is_submit_pro e || is_await e) (tr ++ block)
               = true
               /\ guarded is_submit_pro is_await (tr ++ block) = true
               /\ (micro_submitted pt = true -> existsb is_submit_micro (tr ++ block) = true)
               /\ (pro_submitted pt = true -> existsb is_submit_pro (tr ++ block) = true)).
    { intros block H1 H2. repeat split.
      - apply guarded_app; [exact G1 | right; exact H1].
      - apply guarded_app; [exact G2 | right; exact H2].
      - intros Hp. apply existsb_app_l, E1, Hp.
      - intros Hp. apply existsb_app_l, E2, Hp. }
    destruct fm as [|p|p|r]; try discriminate; injection Hstep as <-;
      cbn [point trace]; apply Hquiet;
      try reflexivity;
      unfold micro_effects_return, micro_try;
      (destruct (micro_completion t p) as [v|e]; [destruct (py_strip v) |]); reflexivity.
  - unfold step_pro in Hstep.
    cbn [point future_micro future_pro_stream trace] in Hstep.
    destruct fp as [|p|g]; try discriminate.
    cbn [stream_nova_pro] in Hstep. injection Hstep as <-. cbn [point trace].
    rewrite app_nil_r. repeat split; assumption.
Qed.

Lemma submit_invariant (t : transport) (q : pystr) (schedule : list thread) :
  submit_inv (chat t q schedule).
Proof.
  apply (run_invariant t submit_inv (submit_step t) schedule (initial q)).
  repeat split; discriminate.
Qed.

(** X12: under every schedule both calls have been handed to the
    executor, the fast one first, before the main thread has got either
    result back: [chat] waits for nothing between the two [submit]
    calls. *)
Theorem chat_submits_before_awaiting
    (t : transport) (q : pystr) (schedule : list thread)
    (pre : list event) (e : event) (post : list event) :
  trace (chat t q schedule) = pre ++ e :: post ->
  (is_await e = true -> In ESubmitMicro pre /\ In ESubmitPro pre)
  /\ (e = ESubmitPro -> In ESubmitMicro pre).
Proof.
  intros Htrace. destruct (submit_invariant t q schedule) as [G1 [G2 _]].
  rewrite Htrace in G1, G2. split.
  - intros He. split.
    + apply is_submit_micro_In.
      apply (guarded_split _ _ pre e post G1).
      * rewrite He. apply orb_true_r.
      * destruct e; try discriminate; reflexivity.
    + apply is_submit_pro_In.
      apply (guarded_split _ _ pre e post G2 He).
      destruct e; try discriminate; reflexivity.
  - intros ->. apply is_submit_micro_In.
    apply (guarded_split _ _ pre ESubmitPro post G1); reflexivity.
Qed.

Lemma chat_submits_before_awaiting_witness :
  In ESubmitMicro
     [EPrint (LogQuestion (str "hi")); EPrint LogRule; ESubmitMicro; ESubmitPro;
      EPrint LogMicroCalling;
      EInvokeModel (micro_request (fst (create_prompts (str "hi"))));
      EPrint LogMicroDone]
  /\ In ESubmitPro
       [EPrint (LogQuestion (str "hi")); EPrint LogRule; ESubmitMicro; ESubmitPro;
        EPrint LogMicroCalling;
        EInvokeModel (micro_request (fst (create_prompts (str "hi"))));
        EPrint LogMicroDone].
Proof.
  refine (proj1 (chat_submits_before_awaiting hello_transport (str "hi")
                   (pro_first_schedule 0) _ (EAwaitMicro (str "On it!"))
                   [EPrint LogFastHeader; ESinkFast (str "On it!");
                    EPrint LogDeepHeader; EAwaitPro] _) _).
  - vm_compute. reflexivity.
  - reflexivity.
Defined.

(** ** [NovaDualChatbot.__init__] and [main] *)

Lemma region_encodable : encodable (str "us-east-1") = true.
Proof. vm_compute. reflexivity. Qed.





Lemma turns_app (l1 l2 : list console) : turns (l1 ++ l2) = turns l1 ++ turns l2.
Proof. apply flat_map_app. Qed.

Lemma main_interactive
    (boto3_client : client_settings -> result transport) (lower : pystr -> pystr)
    (t : transport) (line : pystr) (rest : list pystr) :
  boto3_client (client_settings_for (str "us-east-1")) = Ok t ->
  pystr_eqb (strip line) (str "1") = true ->
  main boto3_client lower (line :: rest)
  = (main_head (Say SayInteractiveHelp) ++ fst (interactive_loop lower t rest),
     snd (interactive_loop lower t rest)).
Proof.
  intros Hc Hm. unfold main, NovaDualChatbot_init.
  rewrite Hc, region_encodable, Hm.
  destruct (interactive_loop lower t rest) as [shown e]. reflexivity.
Qed.

Lemma main_test
    (boto3_client : client_settings -> result transport) (lower : pystr -> pystr)
    (t : transport) (line : pystr) (rest : list pystr) :
  boto3_client (client_settings_for (str "us-east-1")) = Ok t ->
  pystr_eqb (strip line) (str "1") = false ->
  pystr_eqb (strip line) (str "2") = true ->
  main boto3_client lower (line :: rest)
  = (main_head (Say (SayTestMode (List.length test_queries)))
       ++ fst (test_loop t 1 (List.length test_queries) test_queries rest),
     snd (test_loop t 1 (List.length test_queries) test_queries rest)).
Proof.
  intros Hc H1 H2. unfold main, NovaDualChatbot_init.
  rewrite Hc, region_encodable, H1, H2.
  destruct (test_loop t 1 (List.length test_queries) test_queries rest) as [shown e].
  reflexivity.
Qed.

(** X14: when the first line, stripped, is neither ["1"] nor ["2"],
    [main] prints the complaint and returns: it reads no further line,
    asks no second time and calls [chat] for no query. *)
Theorem main_rejects_other_modes
    (boto3_client : client_settings -> result transport) (lower : pystr -> pystr)
    (t : transport) (line : pystr) (rest : list pystr) :
  boto3_client (client_settings_for (str "us-east-1")) = Ok t ->
  pystr_eqb (strip line) (str "1") = false ->
  pystr_eqb (strip line) (str "2") = false ->
  main boto3_client lower (line :: rest) = (main_head (Say SayBadMode), (Returns, rest))
  /\ turns (fst (main boto3_client lower (line :: rest))) = []
  /\ asks (fst (main boto3_client lower (line :: rest))) = [AskMode].
Proof.
  intros Hc H1 H2.
  assert (H : main boto3_client lower (line :: rest)
              = (main_head (Say SayBadMode), (Returns, rest))).
  { unfold main, NovaDualChatbot_init. rewrite Hc, region_encodable, H1, H2.
    reflexivity. }
  rewrite H. repeat split.
Qed.

Lemma main_rejects_other_modes_witness :
  main (sample_client hello_transport) lower_ascii [str "12"; str "hello"]
  = (main_head (Say SayBadMode), (Returns, [str "hello"])).
Proof.
  refine (proj1 (main_rejects_other_modes (sample_client hello_transport) lower_ascii
                   hello_transport (str "12") [str "hello"] _ _ _));
    vm_compute; reflexivity.
Defined.

Lemma test_loop_spec (t : transport) (queries : list pystr) :
  forall (i count : nat) (stdin : list pystr),
    Forall (fun query => is_crashed (run_chat t query) = false) queries ->
    (count + 1 = i + List.length queries)%nat ->
    turns (fst (test_loop t i count queries stdin))
      = firstn (S (List.length stdin)) queries
    /\ fst (snd (test_loop t i count queries stdin))
       = (if Nat.leb (List.length queries - 1) (List.length stdin)
          then Returns else Fails EOFError)
    /\ snd (snd (test_loop t i count queries stdin))
       = skipn (List.length queries - 1) stdin.
Proof.
  induction queries as [|query queries IH]; intros i count stdin Hok Hcount.
  - repeat split.
  - inversion Hok as [|q qs Hq Hqs]; subst.
    cbn [test_loop].
    assert (Hrun : forall (A : Type) (a : exn -> A) (b : A),
               match run_chat t query with
               | Crashed e => a e
               | _ => b
               end = b).
    { intros A a b. destruct (run_chat t query); try reflexivity. discriminate. }
    rewrite Hrun. clear Hrun.
    destruct queries as [|query2 queries].
    + cbn [List.length] in Hcount.
      replace (Nat.ltb i count) with false
        by (symmetry; apply Nat.ltb_ge; lia).
      cbn [test_loop]. cbn [fst snd turns flat_map app List.length firstn skipn Nat.sub Nat.leb].
      rewrite firstn_nil. repeat split.
    + cbn [List.length] in Hcount.
      replace (Nat.ltb i count) with true
        by (symmetry; apply Nat.ltb_lt; lia).
      destruct stdin as [|line stdin'].
      * repeat split.
      * destruct (IH (S i) count stdin' Hqs ltac:(cbn [List.length]; lia))
          as [Hturns [Hend Hrest]].
        destruct (test_loop t (S i) count (query2 :: queries) stdin') as [shown e].
        cbn [fst snd] in *.
        cbn [turns flat_map app]. fold (turns shown). rewrite Hturns.
        cbn [List.length Nat.sub Nat.leb skipn] in *.
        rewrite Nat.sub_0_r in *.
        repeat split; assumption.
Qed.

(** X15: in the test mode, when no turn raises, [chat] is called for
    the prepared queries in their order, and one line of input is read
    between two queries, none after the last.  With three or more lines
    after the selection all four queries are run, [main] returns and the
    further lines stay unread; with fewer, [main] ends with an uncaught
    EOFError after one query more than there were lines. *)
Theorem main_test_mode
    (boto3_client : client_settings -> result transport) (lower : pystr -> pystr)
    (t : transport) (line : pystr) (pauses : list pystr) :
  boto3_client (client_settings_for (str "us-east-1")) = Ok t ->
  pystr_eqb (strip line) (str "1") = false ->
  pystr_eqb (strip line) (str "2") = true ->
  Forall (fun query => is_crashed (run_chat t query) = false) test_queries ->
  turns (fst (main boto3_client lower (line :: pauses)))
    = firstn (S (List.length pauses)) test_queries
  /\ fst (snd (main boto3_client lower (line :: pauses)))
     = (if Nat.leb 3 (List.length pauses) then Returns else Fails EOFError)
  /\ snd (snd (main boto3_client lower (line :: pauses))) = skipn 3 pauses.
Proof.
  intros Hc H1 H2 Hok.
  rewrite (main_test boto3_client lower t line pauses Hc H1 H2).
  destruct (test_loop_spec t test_queries 1 (List.length test_queries) pauses Hok
              ltac:(reflexivity)) as [Hturns [Hend Hrest]].
  cbn [fst snd]. rewrite turns_app.
  repeat split; assumption.
Qed.

Lemma main_test_mode_witness :
  turns (fst (main (sample_client hello_transport) lower_ascii
                [str " 2 "; str "go"]))
  = firstn 2 test_queries.
Proof.
  refine (proj1 (main_test_mode (sample_client hello_transport) lower_ascii
                   hello_transport (str " 2 ") [str "go"] _ _ _ _)).
  - reflexivity.
  - vm_compute. reflexivity.
  - vm_compute. reflexivity.
  - repeat constructor; vm_compute; reflexivity.
Defined.

Lemma run_chat_returns (t : transport) (q : pystr) :
  is_crashed (run_chat t q) = false ->
  forall (A : Type) (a : exn -> A) (b : A),
    match run_chat t q with
    | Crashed e => a e
    | _ => b
    end = b.
Proof.
  intros H A a b. destruct (run_chat t q); try reflexivity. discriminate.
Qed.

Lemma interactive_loop_plain (lower : pystr -> pystr) (t : transport)
    (before rest : list pystr) :
  Forall (plain_line lower t) before ->
  turns (fst (interactive_loop lower t (before ++ rest)))
    = filter nonempty (map strip before)
      ++ turns (fst (interactive_loop lower t rest))
  /\ snd (interactive_loop lower t (before ++ rest))
     = snd (interactive_loop lower t rest).
Proof.
  induction 1 as [|line before [Hq Hrun] _ [IHt IHe]]; [split; reflexivity |].
  cbn [app interactive_loop map filter]. rewrite Hq.
  destruct (strip line) as [|c s] eqn:Hs.
  - destruct (interactive_loop lower t (before ++ rest)) as [shown e].
    cbn [nonempty fst snd] in *.
    change (turns (Ask AskQuestion :: shown)) with (turns shown).
    split; assumption.
  - rewrite (run_chat_returns t (c :: s) (Hrun eq_refl)).
    destruct (interactive_loop lower t (before ++ rest)) as [shown e].
    cbn [nonempty fst snd] in *.
    change (turns (Ask AskQuestion :: Turn (c :: s) :: shown))
      with ((c :: s) :: turns shown).
    rewrite IHt. split; [reflexivity | exact IHe].
Qed.

(** X16: in the interactive mode every line is stripped first; a blank
    line is passed over, any other line is the query of one turn, and
    the first line that is [quit], [exit] or [종료] once lowered ends the
    loop: [chat] has been called for the non-blank lines before it, in
    order, each stripped, [main] returns, and the lines after it stay
    unread. *)
Theorem main_interactive_until_quit
    (boto3_client : client_settings -> result transport) (lower : pystr -> pystr)
    (t : transport) (line : pystr) (before : list pystr) (stop : pystr)
    (after : list pystr) :
  boto3_client (client_settings_for (str "us-east-1")) = Ok t ->
  pystr_eqb (strip line) (str "1") = true ->
  Forall (plain_line lower t) before ->
  is_quit lower (strip stop) = true ->
  turns (fst (main boto3_client lower (line :: before ++ stop :: after)))
    = filter nonempty (map strip before)
  /\ snd (main boto3_client lower (line :: before ++ stop :: after))
     = (Returns, after).
Proof.
  intros Hc Hm Hplain Hstop.
  rewrite (main_interactive boto3_client lower t line _ Hc Hm).
  destruct (interactive_loop_plain lower t before (stop :: after) Hplain) as [Ht He].
  cbn [fst snd]. rewrite turns_app, Ht, He.
  cbn [interactive_loop]. rewrite Hstop. cbn [fst snd turns flat_map app].
  rewrite app_nil_r. split; reflexivity.
Qed.

Lemma main_interactive_until_quit_witness :
  turns (fst (main (sample_client hello_transport) lower_ascii
                (str "1" :: [str "  what is rocq? "; str "   "] ++ str " QUIT " :: [str "x"])))
  = filter nonempty (map strip [str "  what is rocq? "; str "   "])
  /\ snd (main (sample_client hello_transport) lower_ascii
            (str "1" :: [str "  what is rocq? "; str "   "] ++ str " QUIT " :: [str "x"]))
     = (Returns, [str "x"]).
Proof.
  refine (main_interactive_until_quit (sample_client hello_transport) lower_ascii
            hello_transport (str "1") [str "  what is rocq? "; str "   "]
            (str " QUIT ") [str "x"] _ _ _ _).
  - reflexivity.
  - vm_compute. reflexivity.
  - repeat constructor; try (vm_compute; reflexivity);
      intros _; vm_compute; reflexivity.
  - vm_compute. reflexivity.
Defined.

(** X17: the interactive loop has no way out but a command to stop: when
    the input ends before one, [chat] has been called for every
    non-blank line and [main] ends with an uncaught EOFError from
    [input]. *)
Theorem main_interactive_end_of_input
    (boto3_client : client_settings -> result transport) (lower : pystr -> pystr)
    (t : transport) (line : pystr) (lines : list pystr) :
  boto3_client (client_settings_for (str "us-east-1")) = Ok t ->
  pystr_eqb (strip line) (str "1") = true ->
  Forall (plain_line lower t) lines ->
  turns (fst (main boto3_client lower (line :: lines)))
    = filter nonempty (map strip lines)
  /\ snd (main boto3_client lower (line :: lines)) = (Fails EOFError, []).
Proof.
  intros Hc Hm Hplain.
  rewrite (main_interactive boto3_client lower t line _ Hc Hm).
  destruct (interactive_loop_plain lower t lines [] Hplain) as [Ht He].
  rewrite app_nil_r in Ht, He.
  cbn [fst snd]. rewrite turns_app, Ht, He.
  cbn [interactive_loop fst snd turns flat_map app].
  rewrite app_nil_r. split; reflexivity.
Qed.

Lemma main_interactive_end_of_input_witness :
  snd (main (sample_client hello_transport) lower_ascii [str "1"; str "hello"])
  = (Fails EOFError, []).
Proof.
  refine (proj2 (main_interactive_end_of_input (sample_client hello_transport)
                   lower_ascii hello_transport (str "1") [str "hello"] _ _ _)).
  - reflexivity.
  - vm_compute. reflexivity.
  - repeat constructor; try (vm_compute; reflexivity);
      intros _; vm_compute; reflexivity.
Defined.

(** X18: [main] has no handler around [chat]: when a turn raises, the
    interactive session ends with that exception right after the turn,
    and the lines that follow stay unread.  The exception is a TypeError
    (a chunk that is not a string) or a UnicodeEncodeError (a query, a
    fast answer or a chunk that the output cannot encode). *)
Theorem main_chat_error_ends_session
    (boto3_client : client_settings -> result transport) (lower : pystr -> pystr)
    (t : transport) (line : pystr) (before : list pystr) (bad : pystr)
    (after : list pystr) (e : exn) :
  boto3_client (client_settings_for (str "us-east-1")) = Ok t ->
  pystr_eqb (strip line) (str "1") = true ->
  Forall (plain_line lower t) before ->
  is_quit lower (strip bad) = false ->
  nonempty (strip bad) = true ->
  run_chat t (strip bad) = Crashed e ->
  turns (fst (main boto3_client lower (line :: before ++ bad :: after)))
    = filter nonempty (map strip before) ++ [strip bad]
  /\ snd (main boto3_client lower (line :: before ++ bad :: after))
     = (Fails (ChatError e), after)
  /\ (e = TypeError \/ e = UnicodeEncodeError).
Proof.
  intros Hc Hm Hplain Hq Hne Hrun.
  rewrite (main_interactive boto3_client lower t line _ Hc Hm).
  destruct (interactive_loop_plain lower t before (bad :: after) Hplain) as [Ht He].
  cbn [fst snd]. rewrite turns_app, Ht, He.
  cbn [interactive_loop]. rewrite Hq.
  destruct (strip bad) as [|c s] eqn:Hs; [discriminate |].
  rewrite Hrun. cbn [fst snd turns flat_map app].
  repeat split.
  unfold run_chat in Hrun.
  match type of Hrun with
  | point (chat t ?q ?schedule) = _ =>
      pose proof (final_output t q schedule) as Hfin
  end.
  rewrite Hrun in Hfin. destruct (Hfin eq_refl) as [_ Hend].
  unfold pending_outcome, outcome_after_fast in Hend. cbn [point initial] in Hend.
  destruct (encodable (c :: s));
    [| injection Hend as ->; right; reflexivity].
  destruct (encodable (invoke_nova_micro t (fst (create_prompts (c :: s)))));
    [| injection Hend as ->; right; reflexivity].
  symmetry in Hend. exact (loop_outcome_crashed _ _ _ Hend).
Qed.

Lemma main_chat_error_ends_session_witness :
  snd (main (sample_client
               (sample_transport (InvokeRaises TransportError)
                  (StreamInvokeReturns
                     (Some {| stream_events := [delta_event (PInt 5)];
                              stream_final := EndOfStream |}))))
            lower_ascii ([str "1"] ++ [] ++ str "hello" :: [str "quit"]))
  = (Fails (ChatError TypeError), [str "quit"]).
Proof.
  refine (proj1 (proj2 (main_chat_error_ends_session _ lower_ascii _ (str "1") []
                          (str "hello") [str "quit"] TypeError _ _ _ _ _ _))).
  - reflexivity.
  - vm_compute. reflexivity.
  - constructor.
  - vm_compute. reflexivity.
  - vm_compute. reflexivity.
  - vm_compute. reflexivity.
Defined.

(** ** Turns whose deep call gives nothing *)

(** X19: when the streaming response has no body, the generator ends
    without a chunk and without the notice: a turn that is over, for a
    query and a fast answer that [print] can encode, has returned with
    an empty [full_pro_response] and has printed the line that reports
    completion right after the request, with no error line in
    between. *)
Theorem chat_without_stream_body (t : transport) (q : pystr) (schedule : list thread) :
  invoke_model_with_response_stream t (pro_request (snd (create_prompts q)))
    = StreamInvokeReturns None ->
  encodable q = true ->
  encodable (invoke_nova_micro t (fst (create_prompts q))) = true ->
  is_final (point (chat t q schedule)) = true ->
  point (chat t q schedule) = Returned []
  /\ visible_output (trace (chat t q schedule))
     = [EPrint (LogQuestion q); EPrint LogRule]
       ++ micro_effects_call (fst (create_prompts q))
       ++ micro_effects_return t (fst (create_prompts q))
       ++ [EPrint LogFastHeader;
           ESinkFast (invoke_nova_micro t (fst (create_prompts q)));
           EPrint LogDeepHeader;
           EPrint LogProStart;
           EInvokeStream (pro_request (snd (create_prompts q)));
           EPrint LogDone; EPrint LogRule].
Proof.
  intros Hreply Hq Hfast Hfin.
  destruct (final_output t q schedule Hfin) as [Hout Hend].
  rewrite Hout, Hend.
  unfold pending_output, pending_outcome, after_fast, outcome_after_fast.
  cbn [point initial gen_output gen_chunks]. rewrite Hq, Hfast, Hreply.
  split; reflexivity.
Qed.

Lemma chat_without_stream_body_witness :
  point (chat (sample_transport (InvokeRaises TransportError) (StreamInvokeReturns None))
              (str "hi") (eager_schedule 1))
  = Returned [].
Proof.
  refine (proj1 (chat_without_stream_body _ (str "hi") (eager_schedule 1) _ _ _ _)).
  - reflexivity.
  - vm_compute. reflexivity.
  - vm_compute. reflexivity.
  - vm_compute. reflexivity.
Defined.


